(** * BallPoint: the drill progression engine of [src/App.tsx]

    A shallow embedding of the session state kept by the [App] component
    ([startDrill], [handleShotRecorded], the archiving effect,
    [getInstruction], [getActivePosition]), of the types of [types.ts], of
    the program builder of [components/DrillSelector.tsx], of the shot
    sources of [components/CameraView.tsx], of [services/storageService.ts]
    and of the figures of [components/StatsDashboard.tsx], followed by the
    properties of the drill state machine and of the statistics.

    Modelling conventions.
    - A JavaScript [number] is an integer [Z]; fractional values, [NaN]
      and the infinities are not modelled, except in the percentages, which
      are computed on doubles.  An optional field ([targetMakes?: number])
      is an [option Z], [None] being [undefined].
    - [Date.now()] is an input of the call that reads it.
    - React state is the explicit [option DrillSession.t] value that
      [setSession] replaces.  A handler is a closure of the render that
      created it, so a call takes two sessions: the one that render saw,
      read by the guard, and the state the functional update is applied
      to.  The keyboard listener is registered again at every render and
      calls the latest handler; the vision callback is registered once and
      keeps the handler of the render that mounted the camera view.
    - An exception is an explicit [Throw] completion. *)

From stdpp Require Import base decidable option list strings pretty.
From Stdlib Require Import ZArith Lia.
From Stdlib Require Floats.PrimFloat Floats.SpecFloat Floats.FloatOps.
From Stdlib Require Numbers.Cyclic.Int63.Uint63.

Open Scope Z_scope.

(** ** JavaScript values used by the component *)

Module JS.

Inductive Error := TypeError.

(** The completion of a call: a returned value or a thrown exception. *)
Inductive Completion (A : Type) :=
| Normal (a : A)
| Throw (e : Error).
Arguments Normal {A} a.
Arguments Throw {A} e.

Definition bind {A B} (c : Completion A) (k : A -> Completion B)
  : Completion B :=
  match c with
  | Normal a => k a
  | Throw e => Throw e
  end.

Definition fmap {A B} (f : A -> B) (c : Completion A) : Completion B :=
  bind c (fun a => Normal (f a)).

(** Truthiness of an optional number: [undefined] and [0] are falsy. *)
Definition truthy (v : option Z) : bool :=
  match v with
  | Some n => negb (n =? 0)
  | None => false
  end.

(** [a || b] on optional numbers. *)
Definition or (a b : option Z) : option Z :=
  if truthy a then a else b.

(** [t && count >= t] used as a condition; [count] is an array length. *)
Definition reached (t : option Z) (count : nat) : bool :=
  match t with
  | Some n => negb (n =? 0) && (n <=? Z.of_nat count)
  | None => false
  end.

(** [arr[i]] for an integer [i]: [undefined] out of range. *)
Definition index {A} (arr : list A) (i : Z) : option A :=
  if decide (0 <= i) then arr !! Z.to_nat i else None.

(** [arr.length] as a number. *)
Definition len {A} (arr : list A) : Z := Z.of_nat (length arr).

(** The double nearest to an integer, a tie going to the even mantissa;
    every integer below [2^53] in magnitude is a double. *)
Definition nearestDouble (n : Z) : Z :=
  let a := Z.abs n in
  if a <? 2 ^ 53 then n
  else
    let e := Z.log2 a - 52 in
    let q := a `div` 2 ^ e in
    let r := a `mod` 2 ^ e in
    let half := 2 ^ (e - 1) in
    let q' := if (half <? r) || ((r =? half) && Z.odd q) then q + 1 else q in
    Z.sgn n * (q' * 2 ^ e).

Definition digitCount (a : Z) : Z := Z.of_nat (String.length (pretty a)).

(** A number with [k] significant digits, of the [nd] that [x] has, that
    reads back as the double [x]: the nearer of the two neighbours of [x],
    the even one on a tie. *)
Definition readsBackAs (x nd k : Z) : option Z :=
  let p := 10 ^ (nd - k) in
  let lo := (x `div` p) * p in
  let hi := lo + p in
  match nearestDouble lo =? x, nearestDouble hi =? x with
  | true, true =>
    Some (if x - lo <? hi - x then lo
          else if hi - x <? x - lo then hi
          else if Z.even (lo `div` p) then lo else hi)
  | true, false => Some lo
  | false, true => Some hi
  | false, false => None
  end.

Fixpoint shortestFrom (x nd k : Z) (fuel : nat) : Z :=
  match fuel with
  | O => x
  | S fuel' =>
    match readsBackAs x nd k with
    | Some v => v
    | None => shortestFrom x nd (k + 1) fuel'
    end
  end.

(** The number with the fewest significant digits that reads back as the
    double [x >= 0]; 17 digits always suffice. *)
Definition shortest (x : Z) : Z :=
  if x <? 2 ^ 53 then x else shortestFrom x (digitCount x) 1 17.

Fixpoint stripZeros (v : Z) (fuel : nat) : Z :=
  match fuel with
  | O => v
  | S fuel' =>
    if (v `mod` 10 =? 0) && (0 <? v) then stripZeros (v `div` 10) fuel' else v
  end.

(** [d.ddde+N] *)
Definition exponentForm (v : Z) : string :=
  let e := digitCount v - 1 in
  match pretty (stripZeros v (Z.to_nat e)) with
  | String d rest =>
    String d (if decide (rest = "") then "" else "." +:+ rest)
      +:+ "e+" +:+ pretty e
  | EmptyString => ""
  end.

(** [String(n)] and template interpolation of a number: the digits of the
    double nearest to [n], shortest form, written out below [10^21] and in
    exponent form from there on (magnitudes below [2^1024]). *)
Definition toString (n : Z) : string :=
  let v := shortest (nearestDouble (Z.abs n)) in
  (if n <? 0 then "-" else "") +:+
  (if v <? 10 ^ 21 then pretty v else exponentForm v).

Definition interpolate (v : option Z) : string :=
  match v with
  | Some n => toString n
  | None => "undefined"
  end.

End JS.

Import JS (Normal, Throw, TypeError).

(** ** [types.ts] *)

Inductive ShotResult := MAKE | MISS.
Inductive CourtPosition := LEFT | CENTER | RIGHT.

#[global] Instance ShotResult_eq_dec : EqDecision ShotResult.
Proof. solve_decision. Defined.
#[global] Instance CourtPosition_eq_dec : EqDecision CourtPosition.
Proof. solve_decision. Defined.

(** The string value of each enum member. *)
Definition CourtPosition_value (p : CourtPosition) : string :=
  match p with
  | LEFT => "LEFT"
  | CENTER => "CENTER"
  | RIGHT => "RIGHT"
  end.

Module Shot.
Record t := mk {
  id : string;
  result : ShotResult;
  position : CourtPosition;
  timestamp : Z
}.
End Shot.

Module DrillStep.
Record t := mk {
  position : CourtPosition;
  targetMakes : option Z;
  targetAttempts : option Z
}.
End DrillStep.

Module DrillSession.
Record t := mk {
  id : string;
  name : string;
  steps : list DrillStep.t;
  currentStepIndex : Z;
  shots : list Shot.t;
  isActive : bool;
  completed : bool
}.

(** [{ ...prev, shots: nextShots }] *)
Definition with_shots (prev : t) (nextShots : list Shot.t) : t :=
  mk (id prev) (name prev) (steps prev) (currentStepIndex prev) nextShots
     (isActive prev) (completed prev).

(** [{ ...prev, shots: nextShots, currentStepIndex: nextIndex }] *)
Definition with_shots_index (prev : t) (nextShots : list Shot.t)
    (nextIndex : Z) : t :=
  mk (id prev) (name prev) (steps prev) nextIndex nextShots
     (isActive prev) (completed prev).

(** [{ ...prev, shots: nextShots, currentStepIndex: nextIndex,
       isActive: false, completed: true }] *)
Definition finished (prev : t) (nextShots : list Shot.t)
    (nextIndex : Z) : t :=
  mk (id prev) (name prev) (steps prev) nextIndex nextShots false true.
End DrillSession.

(** ** [App.tsx] *)

(** [startDrill(steps)], with [now] the value read from [Date.now()]. *)
Definition startDrill (now : Z) (steps : list DrillStep.t) : DrillSession.t :=
  DrillSession.mk (JS.toString now) "Training Session" steps 0 [] true false.

(** [nextShots.filter(s => s.position === p)] *)
Definition relevantShots (p : CourtPosition) (log : list Shot.t)
  : list Shot.t :=
  filter (fun s => Shot.position s = p) log.

(** [relevantShots.filter(s => s.result === ShotResult.MAKE)] *)
Definition madeShots (log : list Shot.t) : list Shot.t :=
  filter (fun s => Shot.result s = MAKE) log.

(** The two counters of [handleShotRecorded] for position [p]. *)
Definition attemptsAt (p : CourtPosition) (log : list Shot.t) : nat :=
  length (relevantShots p log).

Definition makesAt (p : CourtPosition) (log : list Shot.t) : nat :=
  length (madeShots (relevantShots p log)).

(** The [if ... else if ...] that sets [stepComplete]. *)
Definition stepComplete (step : DrillStep.t) (attempts makes : nat) : bool :=
  if JS.reached (DrillStep.targetAttempts step) attempts then true
  else if JS.reached (DrillStep.targetMakes step) makes then true
  else false.

(** The body of the functional update passed to [setSession], after its
    [if (!prev) return null].  Reading [step.position] of a missing step
    throws a [TypeError].  The haptic and audio feedback fired when a step
    completes does not touch the session and is left out. *)
Definition advance (newShot : Shot.t) (prev : DrillSession.t)
  : JS.Completion DrillSession.t :=
  let nextShots := DrillSession.shots prev ++ [newShot] in
  match JS.index (DrillSession.steps prev)
                 (DrillSession.currentStepIndex prev) with
  | None => Throw TypeError
  | Some step =>
    if decide (Shot.position newShot <> DrillStep.position step) then
      Normal (DrillSession.with_shots prev nextShots)
    else
      let attempts := attemptsAt (DrillStep.position step) nextShots in
      let makes := makesAt (DrillStep.position step) nextShots in
      if stepComplete step attempts makes then
        let nextIndex := DrillSession.currentStepIndex prev + 1 in
        if JS.len (DrillSession.steps prev) <=? nextIndex then
          Normal (DrillSession.finished prev nextShots nextIndex)
        else
          Normal (DrillSession.with_shots_index prev nextShots nextIndex)
      else
        Normal (DrillSession.with_shots prev nextShots)
  end.

(** [prev => { ... }] *)
Definition updater (newShot : Shot.t) (prev : option DrillSession.t)
  : JS.Completion (option DrillSession.t) :=
  match prev with
  | None => Normal None
  | Some p => JS.fmap Some (advance newShot p)
  end.

(** One invocation of the handler: the classified shot and the two
    readings of [Date.now()] (for [id] and for [timestamp]). *)
Record ShotCall := {
  call_result : ShotResult;
  call_position : CourtPosition;
  call_nowId : Z;
  call_nowTs : Z
}.

Definition newShotOf (c : ShotCall) : Shot.t :=
  Shot.mk (JS.toString (call_nowId c)) (call_result c) (call_position c)
          (call_nowTs c).

(** [handleShotRecorded(result, position)].  The handler is a closure of
    the render that created it: [session] is the state that render saw, and
    the guard reads it; the update passed to [setSession] runs on [prev],
    the state at the time React applies it.  The result is the state
    afterwards. *)
Definition handleShotRecorded (session prev : option DrillSession.t)
    (c : ShotCall) : JS.Completion (option DrillSession.t) :=
  match session with
  | None => Normal prev
  | Some s =>
    if negb (DrillSession.isActive s) then Normal prev
    else updater (newShotOf c) prev
  end.

(** A series of calls, each made through the handler of the latest render
    (as the keyboard listener, which is registered again whenever
    [onShotRecorded] changes, makes them): the handler's [session] is the
    current state.  A throw ends the series. *)
Fixpoint handleShots (session : option DrillSession.t) (cs : list ShotCall)
  : JS.Completion (option DrillSession.t) :=
  match cs with
  | [] => Normal session
  | c :: cs' => JS.bind (handleShotRecorded session session c)
                        (fun session' => handleShots session' cs')
  end.

(** A series of shot events, each with the [session] of the handler that
    delivers it, applied to the state in order. *)
Fixpoint deliverShots (state : option DrillSession.t)
    (events : list (option DrillSession.t * ShotCall))
  : JS.Completion (option DrillSession.t) :=
  match events with
  | [] => Normal state
  | event :: events' =>
    JS.bind (handleShotRecorded event.1 state event.2)
            (fun state' => deliverShots state' events')
  end.

(** The vision callback is registered once, when the camera view mounts,
    and keeps the handler of that render for every later event. *)
Definition visionShots (handler state : option DrillSession.t)
    (cs : list ShotCall) : JS.Completion (option DrillSession.t) :=
  deliverShots state (pair handler <$> cs).

(** The guard of the handler, [session && session.isActive]. *)
Definition guardPasses (session : option DrillSession.t) : bool :=
  match session with
  | Some s => DrillSession.isActive s
  | None => false
  end.

(** [getInstruction()] *)
Definition getInstruction (session : option DrillSession.t) : string :=
  match session with
  | None => "Select a drill"
  | Some s =>
    if DrillSession.completed s then "Drill Complete!"
    else
      match JS.index (DrillSession.steps s)
                     (DrillSession.currentStepIndex s) with
      | None => "Loading..."
      | Some step =>
        let relevant := relevantShots (DrillStep.position step)
                                      (DrillSession.shots s) in
        let currentCount :=
          if JS.truthy (DrillStep.targetMakes step)
          then length (madeShots relevant)
          else length relevant in
        let target := JS.or (DrillStep.targetMakes step)
                            (DrillStep.targetAttempts step) in
        "Move to " +:+ CourtPosition_value (DrillStep.position step)
          +:+ ": " +:+ JS.toString (Z.of_nat currentCount)
          +:+ " / " +:+ JS.interpolate target
      end
  end.

(** [getActivePosition()] *)
Definition getActivePosition (session : option DrillSession.t)
  : option CourtPosition :=
  match session with
  | None => None
  | Some s =>
    if DrillSession.completed s then None
    else DrillStep.position <$>
           JS.index (DrillSession.steps s) (DrillSession.currentStepIndex s)
  end.


(** ** [components/DrillSelector.tsx] *)

Module DrillSelector.

(** The component's [useState] cells. *)
Record State := mkState {
  showCustom : bool;
  selectedPositions : list CourtPosition;
  shotsPerPosition : Z;
  isMakeBased : bool;
  targetMakes : Z
}.

Definition initial : State := mkState false [] 5 false 3.

Record Drill := mkDrill {
  drill_name : string;
  description : string;
  drill_steps : list DrillStep.t
}.

Definition predefinedDrills : list Drill :=
  [ mkDrill "Around the World (Standard)"
            "5 shots from Left, Center, and Right."
            [ DrillStep.mk LEFT None (Some 5);
              DrillStep.mk CENTER None (Some 5);
              DrillStep.mk RIGHT None (Some 5) ];
    mkDrill "Sniper School"
            "Make 3 shots from each spot before moving on."
            [ DrillStep.mk LEFT (Some 3) None;
              DrillStep.mk CENTER (Some 3) None;
              DrillStep.mk RIGHT (Some 3) None ];
    mkDrill "Quick Warmup"
            "3 shots from Center only."
            [ DrillStep.mk CENTER None (Some 3) ] ].

(** What a click handler does besides updating the component's state. *)
Inductive Effect :=
| Alert (msg : string)
| OnStartDrill (steps : list DrillStep.t).

Definition togglePosition (pos : CourtPosition) (st : State) : State :=
  let sel := selectedPositions st in
  mkState (showCustom st)
          (if decide (pos ∈ sel) then filter (fun p => p <> pos) sel
           else sel ++ [pos])
          (shotsPerPosition st) (isMakeBased st) (targetMakes st).

Definition resetCustom (st : State) : State := mkState false [] 5 false 3.

(** The step built for one selected position. *)
Definition customStep (st : State) (pos : CourtPosition) : DrillStep.t :=
  if isMakeBased st
  then DrillStep.mk pos (Some (targetMakes st)) None
  else DrillStep.mk pos None (Some (shotsPerPosition st)).

Definition handleCreateCustom (st : State) : Effect * State :=
  if decide (length (selectedPositions st) = 0%nat) then
    (Alert "Please select at least one position", st)
  else
    (OnStartDrill (map (customStep st) (selectedPositions st)),
     resetCustom st).

(** The [onChange] of the threshold input; [parsed] is the result of
    [parseInt(e.target.value)], [None] standing for [NaN]. *)
Definition onThresholdChange (parsed : option Z) (st : State) : State :=
  let val := if JS.truthy parsed then default 1 parsed else 1 in
  if isMakeBased st
  then mkState (showCustom st) (selectedPositions st) (shotsPerPosition st)
               (isMakeBased st) val
  else mkState (showCustom st) (selectedPositions st) val
               (isMakeBased st) (targetMakes st).

End DrillSelector.

(** ** Vocabulary of the properties *)

(** The four ways the functional update returns, as a relation between the
    session before and the session after logging [sh]. *)
Inductive transition (s : DrillSession.t) (sh : Shot.t)
  : DrillSession.t -> Prop :=
| OffTarget step :
    JS.index (DrillSession.steps s) (DrillSession.currentStepIndex s)
      = Some step ->
    Shot.position sh <> DrillStep.position step ->
    transition s sh (DrillSession.with_shots s (DrillSession.shots s ++ [sh]))
| NotYet step :
    JS.index (DrillSession.steps s) (DrillSession.currentStepIndex s)
      = Some step ->
    Shot.position sh = DrillStep.position step ->
    stepComplete step
      (attemptsAt (DrillStep.position step) (DrillSession.shots s ++ [sh]))
      (makesAt (DrillStep.position step) (DrillSession.shots s ++ [sh]))
      = false ->
    transition s sh (DrillSession.with_shots s (DrillSession.shots s ++ [sh]))
| NextStep step :
    JS.index (DrillSession.steps s) (DrillSession.currentStepIndex s)
      = Some step ->
    Shot.position sh = DrillStep.position step ->
    stepComplete step
      (attemptsAt (DrillStep.position step) (DrillSession.shots s ++ [sh]))
      (makesAt (DrillStep.position step) (DrillSession.shots s ++ [sh]))
      = true ->
    DrillSession.currentStepIndex s + 1 < JS.len (DrillSession.steps s) ->
    transition s sh
      (DrillSession.with_shots_index s (DrillSession.shots s ++ [sh])
         (DrillSession.currentStepIndex s + 1))
| DrillFinished step :
    JS.index (DrillSession.steps s) (DrillSession.currentStepIndex s)
      = Some step ->
    Shot.position sh = DrillStep.position step ->
    stepComplete step
      (attemptsAt (DrillStep.position step) (DrillSession.shots s ++ [sh]))
      (makesAt (DrillStep.position step) (DrillSession.shots s ++ [sh]))
      = true ->
    JS.len (DrillSession.steps s) <= DrillSession.currentStepIndex s + 1 ->
    transition s sh
      (DrillSession.finished s (DrillSession.shots s ++ [sh])
         (DrillSession.currentStepIndex s + 1)).

(** What one call does to the session [s] when it is made through the
    handler of the render that shows [s]. *)
Inductive handled (s : DrillSession.t) (c : ShotCall)
  : JS.Completion (option DrillSession.t) -> Prop :=
| Ignored :
    DrillSession.isActive s = false ->
    handled s c (Normal (Some s))
| Accepted s' :
    DrillSession.isActive s = true ->
    transition s (newShotOf c) s' ->
    handled s c (Normal (Some s'))
| Crashed :
    DrillSession.isActive s = true ->
    JS.index (DrillSession.steps s) (DrillSession.currentStepIndex s) = None ->
    handled s c (Throw TypeError).

(** What one call does to the state [s] when it is made through a handler
    whose closure holds [session]. *)
Inductive delivered (session : option DrillSession.t) (s : DrillSession.t)
    (c : ShotCall) : JS.Completion (option DrillSession.t) -> Prop :=
| GuardFails :
    guardPasses session = false ->
    delivered session s c (Normal (Some s))
| Updated s' :
    guardPasses session = true ->
    transition s (newShotOf c) s' ->
    delivered session s c (Normal (Some s'))
| UpdateThrows :
    guardPasses session = true ->
    JS.index (DrillSession.steps s) (DrillSession.currentStepIndex s) = None ->
    delivered session s c (Throw TypeError).

(** The shape of every session the engine produces from a non-empty
    program: the step pointer is within [0 .. steps.length], it equals
    [steps.length] exactly when [completed], and [isActive] is
    [!completed]. *)
Definition invariant (s : DrillSession.t) : Prop :=
  0 <= DrillSession.currentStepIndex s <= JS.len (DrillSession.steps s) /\
  (DrillSession.currentStepIndex s = JS.len (DrillSession.steps s) <->
   DrillSession.completed s = true) /\
  DrillSession.isActive s = negb (DrillSession.completed s).

(** The states seen after each of a series of shot events, up to a
    throw. *)
Fixpoint history (state : option DrillSession.t)
    (events : list (option DrillSession.t * ShotCall))
  : list (option DrillSession.t) :=
  match events with
  | [] => []
  | event :: events' =>
    match handleShotRecorded event.1 state event.2 with
    | Normal state' => state' :: history state' events'
    | Throw _ => []
    end
  end.

(** [session?.completed], the dependency of the archiving effect. *)
Definition isCompleted (session : option DrillSession.t) : bool :=
  match session with
  | Some s => DrillSession.completed s
  | None => false
  end.

(** Number of changes from [false] to [true] along [b :: bs]. *)
Fixpoint risingEdges (b : bool) (bs : list bool) : nat :=
  match bs with
  | [] => 0
  | b' :: bs' => (if negb b && b' then 1 else 0) + risingEdges b' bs'
  end.


(** A step as the data model wants it: exactly one threshold, at least 1. *)
Definition wellFormedStep (step : DrillStep.t) : Prop :=
  (exists T, 1 <= T /\ DrillStep.targetAttempts step = Some T /\
             DrillStep.targetMakes step = None) \/
  (exists T, 1 <= T /\ DrillStep.targetMakes step = Some T /\
             DrillStep.targetAttempts step = None).

(** A step with exactly one threshold field set. *)
Definition oneThreshold (step : DrillStep.t) : Prop :=
  (is_Some (DrillStep.targetAttempts step) /\
   DrillStep.targetMakes step = None) \/
  (is_Some (DrillStep.targetMakes step) /\
   DrillStep.targetAttempts step = None).

(** ** More of JavaScript: arrays with undefined entries, [reduce], and
       the double arithmetic of a percentage *)

Module JSArray.

(** An array whose entries may be [undefined] ([None]); a hole reads as
    [undefined] and is not told apart from it. *)
Definition get {A} (arr : list (option A)) (i : nat) : option A :=
  default None (arr !! i).

(** [arr[i] = v]; writing at or past [arr.length] extends the array. *)
Definition set {A} (arr : list (option A)) (i : nat) (v : option A)
  : list (option A) :=
  if decide (i < length arr)%nat then <[i := v]> arr
  else arr ++ replicate (i - length arr) None ++ [v].

(** [[arr[i], arr[j]] = [arr[j], arr[i]]]: the right-hand side is read
    first, then [arr[i]] and [arr[j]] are written in this order. *)
Definition swapEntries {A} (i j : nat) (arr : list (option A))
  : list (option A) :=
  let fromJ := get arr j in
  let fromI := get arr i in
  set (set arr i fromJ) j fromI.

(** [arr.filter((_, i) => i !== index)] *)
Definition filterIndexNot {A} (index : nat) (arr : list A) : list A :=
  snd <$> filter (fun ix => ix.1 <> index) (zip (seq 0 (length arr)) arr).

(** [[first, ...rest].reduce((prev, current) =>
       (key(prev) > key(current)) ? prev : current)] *)
Definition reduceBest {A} (key : A -> Z) (first : A) (rest : list A) : A :=
  foldl (fun prev current => if key prev >? key current then prev else current)
        first rest.

End JSArray.

Module JSMath.

(** A count as a double; exact below [2^53]. *)
Definition ofCount (n : Z) : PrimFloat.float :=
  PrimFloat.of_uint63 (Uint63.of_Z n).

(** [Math.round] of a finite double: the nearest integer, a tie going
    towards plus infinity. *)
Definition round (x : PrimFloat.float) : Z :=
  match FloatOps.Prim2SF x with
  | SpecFloat.S754_finite s m e =>
    let v := if s then Z.neg m else Z.pos m in
    if 0 <=? e then v * 2 ^ e
    else (2 * v + 2 ^ (- e)) `div` 2 ^ (- e + 1)
  | _ => 0
  end.

(** [Math.round((part / whole) * 100)] *)
Definition percent (part whole : Z) : Z :=
  round (PrimFloat.mul (PrimFloat.div (ofCount part) (ofCount whole))
                       (ofCount 100)).

End JSMath.

(** The string value of each [ShotResult] member. *)
Definition ShotResult_value (r : ShotResult) : string :=
  match r with
  | MAKE => "MAKE"
  | MISS => "MISS"
  end.

(** ** [components/CameraView.tsx] *)

Module CameraView.

(** The [onShotDetected] callback handed to the vision service: the call
    of [onShotRecorded] it makes for the strings it receives. *)
Definition onShotDetected (res pos : string) : ShotResult * CourtPosition :=
  let result := if decide (res = "MAKE") then MAKE else MISS in
  let position := if decide (pos = "LEFT") then LEFT
                  else if decide (pos = "RIGHT") then RIGHT else CENTER in
  (result, position).

(** [handleKeyDown]: the call of [onShotRecorded] made for key [key], if
    any, given the props [isActive] and [activePosition]. *)
Definition handleKeyDown (isActive : bool)
    (activePosition : option CourtPosition) (key : string)
  : option (ShotResult * CourtPosition) :=
  match activePosition with
  | Some position =>
    if negb isActive then None
    else if decide (key = "ArrowUp") then Some (MAKE, position)
    else if decide (key = "ArrowDown") then Some (MISS, position)
    else None
  | None => None
  end.

End CameraView.

(** The props [App] passes to [CameraView]: [isActive={!session.completed}]
    and [activePosition={getActivePosition()}]; a key press on the drill
    screen therefore makes this call of [handleShotRecorded]. *)
Definition keyPressCall (s : DrillSession.t) (key : string)
  : option (ShotResult * CourtPosition) :=
  CameraView.handleKeyDown (negb (DrillSession.completed s))
                           (getActivePosition (Some s)) key.

(** ** [components/DrillSelector.tsx]: ordering the selection *)

Module DrillSelectorOrder.

(** The array handed to [setSelectedPositions] by [movePositionUp(index)];
    without a call the selection stays as it is. *)
Definition movePositionUp (index : nat) (sel : list CourtPosition)
  : list (option CourtPosition) :=
  if decide (0 < index)%nat
  then JSArray.swapEntries index (index - 1) (Some <$> sel)
  else Some <$> sel.

(** [movePositionDown(index)] *)
Definition movePositionDown (index : nat) (sel : list CourtPosition)
  : list (option CourtPosition) :=
  if decide (Z.of_nat index < JS.len sel - 1)
  then JSArray.swapEntries index (index + 1) (Some <$> sel)
  else Some <$> sel.

(** [removePosition(index)] *)
Definition removePosition (index : nat) (sel : list CourtPosition)
  : list CourtPosition :=
  JSArray.filterIndexNot index sel.

End DrillSelectorOrder.

(** ** [services/storageService.ts] *)

Module SessionStats.
Record t := mk {
  id : string;
  date : Z;
  totalShots : Z;
  makes : Z;
  percentage : Z;
  shots : list Shot.t
}.
End SessionStats.

Module PositionStats.
Record t := mk {
  attempts : Z;
  makes : Z;
  percentage : Z
}.
End PositionStats.

Module OverallStats.
Record t := mk {
  totalSessions : Z;
  totalShots : Z;
  totalMakes : Z;
  averagePercentage : Z;
  bestSession : option SessionStats.t;
  positionStats : CourtPosition -> PositionStats.t
}.
End OverallStats.

Module storageService.

(** What [localStorage] holds under [STORAGE_KEY]: nothing, or the JSON
    text of a list of sessions, kept here as the list it parses to (only
    this module writes the key, and [JSON.parse] gives back the strings,
    integers and arrays that [JSON.stringify] wrote). *)
Definition Storage := option (list SessionStats.t).

Definition getAllSessions (store : Storage) : list SessionStats.t :=
  match store with
  | Some sessions => sessions
  | None => []
  end.

(** [saveSession(shots)], with the two readings of [Date.now()]: the
    returned stats and the store afterwards. *)
Definition saveSession (nowId nowDate : Z) (shots : list Shot.t)
    (store : Storage) : SessionStats.t * Storage :=
  let stats :=
    SessionStats.mk
      (JS.toString nowId) nowDate
      (JS.len shots)
      (JS.len (madeShots shots))
      (if JS.len shots >? 0
       then JSMath.percent (JS.len (madeShots shots)) (JS.len shots)
       else 0)
      shots in
  (stats, Some (getAllSessions store ++ [stats])).

Definition clearAllStats (store : Storage) : Storage := None.

(** The object literal with the three zeroed counters. *)
Definition zeroPositionStats : CourtPosition -> PositionStats.t :=
  fun _ => PositionStats.mk 0 0 0.

(** [positionStats[pos].attempts++] and, for a make,
    [positionStats[pos].makes++]. *)
Definition countShot (stats : CourtPosition -> PositionStats.t)
    (shot : Shot.t) : CourtPosition -> PositionStats.t :=
  fun pos =>
    if decide (pos = Shot.position shot) then
      PositionStats.mk
        (PositionStats.attempts (stats pos) + 1)
        (if decide (Shot.result shot = MAKE)
         then PositionStats.makes (stats pos) + 1
         else PositionStats.makes (stats pos))
        (PositionStats.percentage (stats pos))
    else stats pos.

(** The two nested [forEach] loops. *)
Definition countSessions (sessions : list SessionStats.t)
  : CourtPosition -> PositionStats.t :=
  foldl (fun stats session => foldl countShot stats (SessionStats.shots session))
        zeroPositionStats sessions.

(** The loop over [Object.keys(positionStats)] that sets [percentage]. *)
Definition withPercentage (stats : CourtPosition -> PositionStats.t)
  : CourtPosition -> PositionStats.t :=
  fun pos =>
    PositionStats.mk
      (PositionStats.attempts (stats pos))
      (PositionStats.makes (stats pos))
      (if PositionStats.attempts (stats pos) >? 0
       then JSMath.percent (PositionStats.makes (stats pos))
                           (PositionStats.attempts (stats pos))
       else 0).

Definition getOverallStats (store : Storage) : OverallStats.t :=
  match getAllSessions store with
  | [] => OverallStats.mk 0 0 0 0 None zeroPositionStats
  | first :: rest =>
    let sessions := first :: rest in
    let totalShots :=
      foldl (fun sum s => sum + SessionStats.totalShots s) 0 sessions in
    let totalMakes :=
      foldl (fun sum s => sum + SessionStats.makes s) 0 sessions in
    let averagePercentage :=
      if totalShots >? 0 then JSMath.percent totalMakes totalShots else 0 in
    let bestSession :=
      JSArray.reduceBest SessionStats.percentage first rest in
    OverallStats.mk (JS.len sessions) totalShots totalMakes averagePercentage
                    (Some bestSession)
                    (withPercentage (countSessions sessions))
  end.

(** A store after saving a series of shot logs, each with its two clock
    readings, oldest first. *)
Definition saveAll (logs : list (Z * Z * list Shot.t)) (store : Storage)
  : Storage :=
  foldl (fun st log => (saveSession log.1.1 log.1.2 log.2 st).2) store logs.

End storageService.

(** ** [components/StatsDashboard.tsx] *)

Module StatsDashboard.

Record Bar := mkBar {
  name : CourtPosition;
  makes : Z;
  attempts : Z;
  pct : Z
}.

Definition totalShots (shots : list Shot.t) : Z := JS.len shots.

Definition madeShotsCount (shots : list Shot.t) : Z :=
  JS.len (madeShots shots).

Definition percentage (shots : list Shot.t) : Z :=
  if totalShots shots >? 0
  then JSMath.percent (madeShotsCount shots) (totalShots shots)
  else 0.

Definition positions : list CourtPosition := [LEFT; CENTER; RIGHT].

(** [positions.map(pos => ...)] *)
Definition data (shots : list Shot.t) : list Bar :=
  map (fun pos =>
         let positionShots := relevantShots pos shots in
         let attempts := JS.len positionShots in
         let makes := JS.len (madeShots positionShots) in
         let pct := if attempts >? 0 then JSMath.percent makes attempts
                    else 0 in
         mkBar pos makes attempts pct)
      positions.

(** The "Best Zone" card: [data.reduce(...).name]; [reduce] on an empty
    array throws.  With [totalShots === 0] the component has returned the
    "No Data Yet" panel before and there is no card. *)
Definition bestZone (shots : list Shot.t)
  : JS.Completion (option CourtPosition) :=
  if totalShots shots =? 0 then Normal None
  else
    match data shots with
    | first :: rest => Normal (Some (name (JSArray.reduceBest pct first rest)))
    | [] => Throw TypeError
    end.

(** [handleClearStats], given the answer of [window.confirm]: the store
    and the [overallStats] state afterwards. *)
Definition handleClearStats (confirmed : bool)
    (store : storageService.Storage) (overallStats : OverallStats.t)
  : storageService.Storage * OverallStats.t :=
  if confirmed then
    let store' := storageService.clearAllStats store in
    (store', storageService.getOverallStats store')
  else (store, overallStats).

End StatsDashboard.

(** ** [App.tsx]: archiving a completed drill *)

Module AppEffect.

(** The dependency of the effect, [session?.completed]. *)
Definition dependency (session : option DrillSession.t) : option bool :=
  DrillSession.completed <$> session.

(** The body of the effect, with the clock readings [saveSession] takes;
    the delayed change of view does not touch session or store. *)
Definition body (clock : Z * Z) (session : option DrillSession.t)
    (store : storageService.Storage) : storageService.Storage :=
  match session with
  | Some s =>
    if DrillSession.completed s
    then (storageService.saveSession clock.1 clock.2
            (DrillSession.shots s) store).2
    else store
  | None => store
  end.

(** What the component holds between two events: the session state, the
    store, and the dependency value of the last committed render. *)
Record State := mkState {
  session : option DrillSession.t;
  store : storageService.Storage;
  committed : option bool
}.

(** A render commits [session']; React runs the effect when its dependency
    differs from the one of the previous commit. *)
Definition commit (clock : Z * Z) (session' : option DrillSession.t)
    (st : State) : State :=
  if decide (dependency session' = committed st)
  then mkState session' (store st) (dependency session')
  else mkState session' (body clock session' (store st))
               (dependency session').

(** The first render after [startDrill(steps)] replaced the session. *)
Definition started (now : Z) (clock : Z * Z) (steps : list DrillStep.t)
    (st : State) : State :=
  commit clock (Some (startDrill now steps)) st.

(** One shot event, delivered by a handler whose closure holds [handler],
    then the render it causes. *)
Definition shot (handler : option DrillSession.t) (c : ShotCall)
    (clock : Z * Z) (st : State) : JS.Completion State :=
  JS.fmap (fun session' => commit clock session' st)
          (handleShotRecorded handler (session st) c).


End AppEffect.

(** Every step before the pointer is complete for the counters of the
    current log. *)
Definition stepsBehindComplete (s : DrillSession.t) : Prop :=
  forall i step,
    0 <= i < DrillSession.currentStepIndex s ->
    JS.index (DrillSession.steps s) i = Some step ->
    stepComplete step
      (attemptsAt (DrillStep.position step) (DrillSession.shots s))
      (makesAt (DrillStep.position step) (DrillSession.shots s)) = true.

(** * Properties *)

(** ** The scenarios of the specification, run on the code *)

(** Each shot is delivered by the handler of the latest render, as the
    keyboard listener does. *)

Example scenario_A :
  exists s',
    handleShots (Some (startDrill 1 [DrillStep.mk CENTER None (Some 3)]))
                [Build_ShotCall MISS CENTER 2 2;
                 Build_ShotCall MISS CENTER 3 3;
                 Build_ShotCall MAKE CENTER 4 4] = Normal (Some s') /\
    DrillSession.completed s' = true /\
    length (DrillSession.shots s') = 3%nat.
Proof. eexists. repeat split. Qed.

Example scenario_B :
  exists s',
    handleShots (Some (startDrill 1 [DrillStep.mk LEFT (Some 2) None;
                                      DrillStep.mk RIGHT (Some 2) None]))
                [Build_ShotCall MAKE LEFT 2 2;
                 Build_ShotCall MISS LEFT 3 3;
                 Build_ShotCall MAKE LEFT 4 4] = Normal (Some s') /\
    DrillSession.currentStepIndex s' = 1 /\
    DrillSession.isActive s' = true /\
    DrillSession.completed s' = false.
Proof. eexists. repeat split. Qed.

Example scenario_C :
  let s0 := startDrill 1 [DrillStep.mk CENTER None (Some 1)] in
  exists s1 s2,
    handleShotRecorded (Some s0) (Some s0) (Build_ShotCall MAKE LEFT 2 2)
      = Normal (Some s1) /\
    length (DrillSession.shots s1) = 1%nat /\
    DrillSession.currentStepIndex s1 = 0 /\
    handleShotRecorded (Some s1) (Some s1) (Build_ShotCall MAKE CENTER 3 3)
      = Normal (Some s2) /\
    DrillSession.currentStepIndex s2 = 1 /\
    DrillSession.currentStepIndex s2 = JS.len (DrillSession.steps s2) /\
    DrillSession.completed s2 = true.
Proof. do 2 eexists. repeat split. Qed.

(** After completion a further event is ignored when it comes through the
    handler of the render that shows the completed session, and throws
    when it comes through the handler that delivered the completing
    shot. *)
Example scenario_D :
  let s0 := startDrill 1 [DrillStep.mk CENTER None (Some 1)] in
  exists s1,
    handleShotRecorded (Some s0) (Some s0) (Build_ShotCall MAKE CENTER 2 2)
      = Normal (Some s1) /\
    DrillSession.completed s1 = true /\
    handleShotRecorded (Some s1) (Some s1) (Build_ShotCall MISS CENTER 3 3)
      = Normal (Some s1) /\
    handleShotRecorded (Some s0) (Some s1) (Build_ShotCall MISS CENTER 3 3)
      = Throw TypeError.
Proof. eexists. repeat split. Qed.

(** ** Array indexing and the two counters *)

Section Counters.

Context {A : Type}.
Implicit Types (arr : list A) (i : Z).

Lemma index_Some_bounds arr i x :
  JS.index arr i = Some x -> 0 <= i < JS.len arr.
Proof.
  unfold JS.index, JS.len. case_decide; [|discriminate].
  intros Hx%lookup_lt_Some. lia.
Qed.

Lemma index_in_range arr i :
  0 <= i < JS.len arr -> is_Some (JS.index arr i).
Proof.
  unfold JS.index, JS.len. intros Hi. case_decide; [|lia].
  apply lookup_lt_is_Some. lia.
Qed.

End Counters.

Lemma attemptsAt_snoc p log s :
  attemptsAt p (log ++ [s]) =
  (attemptsAt p log + (if decide (Shot.position s = p) then 1 else 0))%nat.
Proof.
  unfold attemptsAt, relevantShots. rewrite filter_app, length_app.
  f_equal. rewrite filter_cons, filter_nil. by case_decide.
Qed.

Lemma makesAt_snoc p log s :
  makesAt p (log ++ [s]) =
  (makesAt p log +
   (if decide (Shot.position s = p /\ Shot.result s = MAKE) then 1 else 0))%nat.
Proof.
  unfold makesAt, madeShots, relevantShots.
  rewrite filter_app, filter_app, length_app. f_equal.
  rewrite (filter_cons _ s), filter_nil.
  destruct (decide (Shot.position s = p)) as [Hp|Hp].
  - rewrite filter_cons, filter_nil.
    destruct (decide (Shot.result s = MAKE)); case_decide; tauto.
  - rewrite filter_nil. case_decide; tauto.
Qed.

Lemma makesAt_le_attemptsAt p log : (makesAt p log <= attemptsAt p log)%nat.
Proof. unfold makesAt, attemptsAt, madeShots. apply length_filter. Qed.

Lemma reached_spec t count :
  JS.reached t count = true <->
  exists n, t = Some n /\ n <> 0 /\ n <= Z.of_nat count.
Proof.
  unfold JS.reached. destruct t as [n|].
  - rewrite andb_true_iff, negb_true_iff, Z.eqb_neq, Z.leb_le. split.
    + intros [Hn Hle]. by exists n.
    + intros (m & [= <-] & Hn & Hle). done.
  - split; [done|]. by intros (m & Hm & _).
Qed.

Lemma reached_falsy t count : JS.truthy t = false -> JS.reached t count = false.
Proof.
  unfold JS.truthy, JS.reached. destruct t as [n|]; [|done].
  intros ->. done.
Qed.

Lemma stepComplete_spec step attempts makes :
  stepComplete step attempts makes =
  JS.reached (DrillStep.targetAttempts step) attempts
  || JS.reached (DrillStep.targetMakes step) makes.
Proof. unfold stepComplete. by repeat case_match. Qed.

(** ** The transition taken by one accepted shot *)

Lemma advance_transition sh s s' :
  advance sh s = Normal s' <-> transition s sh s'.
Proof.
  unfold advance. split.
  - destruct (JS.index _ _) as [step|] eqn:Hstep; [|discriminate].
    case_decide as Hpos.
    { intros [= <-]. by eapply OffTarget. }
    destruct (stepComplete _ _ _) eqn:Hdone.
    + destruct (Z.leb_spec (JS.len (DrillSession.steps s))
                           (DrillSession.currentStepIndex s + 1));
        intros [= <-].
      * by eapply DrillFinished.
      * by eapply NextStep.
    + intros [= <-]. by eapply NotYet.
  - intros Ht. destruct Ht as [step Hstep Hpos|step Hstep Hpos Hdone
      |step Hstep Hpos Hdone Hlt|step Hstep Hpos Hdone Hge];
      rewrite Hstep; case_decide; try done; rewrite Hdone; try done.
    + destruct (Z.leb_spec (JS.len (DrillSession.steps s))
                           (DrillSession.currentStepIndex s + 1)); [lia|done].
    + destruct (Z.leb_spec (JS.len (DrillSession.steps s))
                           (DrillSession.currentStepIndex s + 1)); [done|lia].
Qed.

Lemma advance_throws sh s :
  advance sh s = Throw TypeError <->
  JS.index (DrillSession.steps s) (DrillSession.currentStepIndex s) = None.
Proof.
  unfold advance. destruct (JS.index _ _) as [step|]; [|done].
  split; [|done]. by repeat case_match.
Qed.

(** The handler of the render that shows [s] either leaves an inactive
    session alone or runs the update on an active one. *)
Lemma handle_inactive s c :
  DrillSession.isActive s = false ->
  handleShotRecorded (Some s) (Some s) c = Normal (Some s).
Proof. intros Hs. unfold handleShotRecorded. by rewrite Hs. Qed.

Lemma handle_active s c :
  DrillSession.isActive s = true ->
  handleShotRecorded (Some s) (Some s) c = JS.fmap Some (advance (newShotOf c) s).
Proof. intros Hs. unfold handleShotRecorded. by rewrite Hs. Qed.

Lemma handleShotRecorded_handled s c :
  handled s c (handleShotRecorded (Some s) (Some s) c).
Proof.
  destruct (DrillSession.isActive s) eqn:Hact.
  - rewrite handle_active by done.
    destruct (advance (newShotOf c) s) as [s'|[]] eqn:Hadv; simpl.
    + apply Accepted; [done|]. by apply advance_transition.
    + apply Crashed; [done|]. by apply (advance_throws (newShotOf c)).
  - rewrite handle_inactive by done. by apply Ignored.
Qed.

(** A call on an active session with a current step is accepted: name the
    session [s'] it returns and the transition [Ht] taken. *)
Ltac accepted s c s' Ht :=
  destruct (handleShotRecorded_handled s c) as [?Hoff|s' _ Ht|_ ?Hnone];
  [congruence| |congruence].

Lemma handled_Normal_inv s c o :
  handleShotRecorded (Some s) (Some s) c = Normal o ->
  exists s', o = Some s' /\
    ((DrillSession.isActive s = false /\ s' = s) \/
     (DrillSession.isActive s = true /\ transition s (newShotOf c) s')).
Proof.
  intros Hh. pose proof (handleShotRecorded_handled s c) as Hd.
  rewrite Hh in Hd. inversion Hd; subst; eauto.
Qed.

(** Runs the call at the head of the goal and takes its result as the
    witness. *)
Ltac run_call :=
  lazymatch goal with
  | |- exists s', ?call = Normal (Some s') /\ _ =>
      let v := eval vm_compute in call in
      lazymatch v with
      | Normal (Some ?x) => exists x; split; [by vm_compute|]
      end
  end.

(** *** A call through any handler *)

Lemma handle_guard_fails session prev c :
  guardPasses session = false ->
  handleShotRecorded session prev c = Normal prev.
Proof.
  unfold handleShotRecorded, guardPasses.
  destruct session as [h|]; [|done]. by intros ->.
Qed.

Lemma handle_guard_passes session s c :
  guardPasses session = true ->
  handleShotRecorded session (Some s) c
  = JS.fmap Some (advance (newShotOf c) s).
Proof.
  unfold handleShotRecorded, guardPasses.
  destruct session as [h|]; [|done]. by intros ->.
Qed.

(** Any two handlers that pass their guard do the same to the state. *)
Lemma handle_any_active h s c :
  DrillSession.isActive h = true -> DrillSession.isActive s = true ->
  handleShotRecorded (Some h) (Some s) c
  = handleShotRecorded (Some s) (Some s) c.
Proof. intros Hh Hs. by rewrite !handle_guard_passes. Qed.

Lemma handleShotRecorded_delivered session s c :
  delivered session s c (handleShotRecorded session (Some s) c).
Proof.
  destruct (guardPasses session) eqn:Hg.
  - rewrite handle_guard_passes by done.
    destruct (advance (newShotOf c) s) as [s'|[]] eqn:Hadv; simpl.
    + apply Updated; [done|]. by apply advance_transition.
    + apply UpdateThrows; [done|]. by apply (advance_throws (newShotOf c)).
  - rewrite handle_guard_fails by done. by apply GuardFails.
Qed.

Lemma delivered_Normal_inv session s c o :
  handleShotRecorded session (Some s) c = Normal o ->
  exists s', o = Some s' /\
    ((guardPasses session = false /\ s' = s) \/
     (guardPasses session = true /\ transition s (newShotOf c) s')).
Proof.
  intros Hh. pose proof (handleShotRecorded_delivered session s c) as Hd.
  rewrite Hh in Hd. inversion Hd; subst; eauto.
Qed.

(** The exact outcome of a call: a [TypeError] when the guard passes and
    the state has no current step, a returned state otherwise. *)
Lemma call_outcome session s c :
  (handleShotRecorded session (Some s) c = Throw TypeError /\
   guardPasses session = true /\
   JS.index (DrillSession.steps s) (DrillSession.currentStepIndex s) = None)
  \/
  (exists s', handleShotRecorded session (Some s) c = Normal (Some s') /\
     (guardPasses session = false /\ s' = s \/
      guardPasses session = true /\ transition s (newShotOf c) s')).
Proof.
  destruct (handleShotRecorded_delivered session s c) as [Hg|s' Hg Ht|Hg Hnone].
  - right. exists s. auto.
  - right. exists s'. auto.
  - left. auto.
Qed.

Lemma deliverShots_cons state event events :
  deliverShots state (event :: events) =
  JS.bind (handleShotRecorded event.1 state event.2)
          (fun state' => deliverShots state' events).
Proof. done. Qed.

Lemma deliverShots_app events1 events2 : forall state,
  deliverShots state (events1 ++ events2) =
  JS.bind (deliverShots state events1)
          (fun state' => deliverShots state' events2).
Proof.
  induction events1 as [|event events1 IH]; intros state; [done|].
  rewrite <- app_comm_cons, !deliverShots_cons.
  destruct (handleShotRecorded event.1 state event.2) as [o|e]; [|done].
  cbn [JS.bind]. apply IH.
Qed.

(** A property of sessions kept by every transition is kept by every
    series of events that returns. *)
Lemma deliverShots_preserves (P : DrillSession.t -> Prop) :
  (forall s sh s', transition s sh s' -> P s -> P s') ->
  forall events s s',
    deliverShots (Some s) events = Normal (Some s') -> P s -> P s'.
Proof.
  intros Hstep. induction events as [|event events IH]; intros s s'.
  - by intros [= <-].
  - rewrite deliverShots_cons.
    destruct (handleShotRecorded event.1 (Some s) event.2) as [o|e] eqn:Hh;
      [|done].
    destruct (delivered_Normal_inv _ _ _ _ Hh) as (s1 & -> & Hcase).
    cbn [JS.bind]. intros Hrun Hs. eapply IH; [done|].
    destruct Hcase as [[_ ->]|[_ Ht]]; [done|]. by eapply Hstep.
Qed.

Lemma deliverShots_Some events : forall s o,
  deliverShots (Some s) events = Normal o -> exists s', o = Some s'.
Proof.
  induction events as [|event events IH]; intros s o.
  - intros [= <-]. eauto.
  - rewrite deliverShots_cons.
    destruct (handleShotRecorded event.1 (Some s) event.2) as [o1|e] eqn:Hh;
      [|done].
    destruct (delivered_Normal_inv _ _ _ _ Hh) as (s1 & -> & _).
    cbn [JS.bind]. apply IH.
Qed.

(** Every transition appends the shot and keeps the program. *)
Lemma transition_frame s sh s' :
  transition s sh s' ->
  DrillSession.shots s' = DrillSession.shots s ++ [sh] /\
  DrillSession.steps s' = DrillSession.steps s /\
  DrillSession.id s' = DrillSession.id s /\
  DrillSession.name s' = DrillSession.name s.
Proof. by inversion 1. Qed.

Lemma transition_index s sh s' :
  transition s sh s' ->
  DrillSession.currentStepIndex s' = DrillSession.currentStepIndex s \/
  DrillSession.currentStepIndex s' = DrillSession.currentStepIndex s + 1.
Proof. inversion 1; simpl; auto. Qed.

Lemma transition_completed_stays s sh s' :
  transition s sh s' ->
  DrillSession.completed s = true -> DrillSession.completed s' = true.
Proof. by inversion 1. Qed.

(** The transition that sets [completed] lands on [steps.length]. *)
Lemma transition_terminal s sh s' :
  transition s sh s' ->
  DrillSession.completed s = false -> DrillSession.completed s' = true ->
  DrillSession.currentStepIndex s' = JS.len (DrillSession.steps s') /\
  DrillSession.currentStepIndex s' = DrillSession.currentStepIndex s + 1 /\
  DrillSession.isActive s' = false.
Proof.
  inversion 1 as [| | |step Hstep Hpos Hdone Hge]; subst; simpl; try congruence.
  intros _ _. apply index_Some_bounds in Hstep. lia.
Qed.

(** ** The session invariant *)

Lemma startDrill_invariant now steps :
  steps <> [] -> invariant (startDrill now steps).
Proof.
  intros Hne. unfold invariant, JS.len. simpl.
  destruct steps as [|st steps]; [done|]. simpl. repeat split; try lia; done.
Qed.

Lemma transition_invariant s sh s' :
  transition s sh s' -> DrillSession.isActive s = true ->
  invariant s -> invariant s'.
Proof.
  unfold invariant.
  inversion 1 as [step Hstep|step Hstep|step Hstep Hpos Hdone Hlt
                 |step Hstep Hpos Hdone Hge];
    subst; simpl; try done; intros Hon (Hrange & Hend & Hact).
  - rewrite Hon in Hact. destruct (DrillSession.completed s); [done|].
    repeat split; first [lia | done].
  - apply index_Some_bounds in Hstep. repeat split; first [lia | done].
Qed.

(** ** The invariant and the step pointer over any series of events *)

Lemma invariant_step_active s step :
  invariant s ->
  JS.index (DrillSession.steps s) (DrillSession.currentStepIndex s)
    = Some step ->
  DrillSession.isActive s = true /\ DrillSession.completed s = false.
Proof.
  intros (Hrange & Hend & Hact) Hstep%index_Some_bounds.
  destruct (DrillSession.completed s) eqn:Hdone; [|by rewrite Hact].
  assert (DrillSession.currentStepIndex s = JS.len (DrillSession.steps s))
    by by apply Hend.
  lia.
Qed.

Lemma invariant_no_step_completed s :
  invariant s ->
  JS.index (DrillSession.steps s) (DrillSession.currentStepIndex s) = None
  <-> DrillSession.completed s = true.
Proof.
  intros Hinv. split.
  - intros Hnone. destruct (DrillSession.completed s) eqn:Hdone; [done|].
    destruct Hinv as (Hrange & Hend & Hact).
    destruct (index_in_range (DrillSession.steps s)
                (DrillSession.currentStepIndex s)) as [step Hstep];
      [|congruence].
    destruct (decide (DrillSession.currentStepIndex s
                      = JS.len (DrillSession.steps s))) as [He|Hne]; [|lia].
    apply Hend in He. congruence.
  - intros Hdone.
    destruct (JS.index _ _) as [step|] eqn:Hstep; [|done].
    destruct (invariant_step_active s step Hinv Hstep). congruence.
Qed.

Lemma transition_invariant_any s sh s' :
  transition s sh s' -> invariant s -> invariant s'.
Proof.
  intros Ht Hinv. eapply transition_invariant; [done| |done].
  inversion Ht as [step Hstep|step Hstep|step Hstep|step Hstep];
    by destruct (invariant_step_active s step Hinv Hstep).
Qed.

Lemma deliverShots_invariant events s s' :
  deliverShots (Some s) events = Normal (Some s') ->
  invariant s -> invariant s'.
Proof. apply (deliverShots_preserves invariant), transition_invariant_any. Qed.

Lemma deliverShots_index_le events s s' :
  deliverShots (Some s) events = Normal (Some s') ->
  DrillSession.currentStepIndex s <= DrillSession.currentStepIndex s'.
Proof.
  intros Hrun.
  eapply (deliverShots_preserves
            (fun x => DrillSession.currentStepIndex s
                      <= DrillSession.currentStepIndex x)); [|done|lia].
  intros a sh b Ht%transition_index. lia.
Qed.

Lemma deliverShots_completed_stays events s s' :
  deliverShots (Some s) events = Normal (Some s') ->
  DrillSession.completed s = true -> DrillSession.completed s' = true.
Proof.
  apply (deliverShots_preserves (fun x => DrillSession.completed x = true)).
  intros a sh b. apply transition_completed_stays.
Qed.

(** On a session that satisfies the invariant, a series of events fails
    exactly when one of them comes through a handler that passes its guard
    after the drill has been completed. *)
Lemma deliverShots_throws_iff events : forall s,
  invariant s ->
  deliverShots (Some s) events = Throw TypeError <->
  exists pre h c post s1,
    events = pre ++ (Some h, c) :: post /\
    DrillSession.isActive h = true /\
    deliverShots (Some s) pre = Normal (Some s1) /\
    DrillSession.completed s1 = true.
Proof.
  induction events as [|event events IH]; intros s Hinv.
  - split; [done|]. intros (pre & h & c & post & s1 & Heq & _).
    by destruct pre.
  - split.
    + rewrite deliverShots_cons.
      destruct (call_outcome event.1 s event.2)
        as [(Hh & Hg & Hnone)|(s1 & Hh & Hcase)]; rewrite Hh; cbn [JS.bind].
      * intros _. destruct event as [[h|] c]; [|done].
        exists [], h, c, events, s. repeat split; [done|].
        by apply invariant_no_step_completed.
      * assert (Hinv1 : invariant s1).
        { destruct Hcase as [[_ ->]|[_ Ht]]; [done|].
          by eapply transition_invariant_any. }
        intros (pre & h & c & post & s2 & -> & Hact & Hpre & Hdone)%IH;
          [|done].
        exists (event :: pre), h, c, post, s2. repeat split; [done| |done].
        rewrite deliverShots_cons, Hh. done.
    + intros (pre & h & c & post & s1 & Heq & Hact & Hpre & Hdone).
      rewrite Heq, deliverShots_app, Hpre. cbn [JS.bind].
      rewrite deliverShots_cons. cbn [fst snd].
      rewrite handle_guard_passes by done.
      assert (Hinv1 : invariant s1) by by eapply deliverShots_invariant.
      apply (invariant_no_step_completed s1 Hinv1) in Hdone.
      apply (advance_throws (newShotOf c)) in Hdone. by rewrite Hdone.
Qed.

(** ** Events after the drill stopped *)

(** The guard reads the handler's session and the update reads the state:
    a call through a handler whose own session is stopped leaves the state
    alone ([handle_guard_fails]), but through a handler created while the
    drill was running, a shot that arrives after completion reaches the
    update, which reads the position of a step that does not exist. *)
Lemma stale_handler_throws_after_completion h s c :
  DrillSession.isActive h = true ->
  invariant s -> DrillSession.completed s = true ->
  handleShotRecorded (Some h) (Some s) c = Throw TypeError.
Proof.
  intros Hh Hinv Hdone. rewrite handle_guard_passes by done.
  apply (invariant_no_step_completed s Hinv) in Hdone.
  apply (advance_throws (newShotOf c)) in Hdone. by rewrite Hdone.
Qed.

(** C2.  The code on "Quick Warmup", the third predefined drill (3 shots
    from CENTER), with shots reported by the vision service, whose callback
    keeps the handler of the render that mounted the camera view: the third
    shot completes the drill ([completed] true, [isActive] false, 3 shots
    logged), and a fourth shot on that completed session is not ignored but
    throws a [TypeError]. *)
Theorem vision_shot_after_completion_throws :
  let steps := [DrillStep.mk CENTER None (Some 3)] in
  let started := startDrill 1 steps in
  let c1 := Build_ShotCall MISS CENTER 2 2 in
  let c2 := Build_ShotCall MISS CENTER 3 3 in
  let c3 := Build_ShotCall MAKE CENTER 4 4 in
  let c4 := Build_ShotCall MAKE CENTER 5 5 in
  DrillSelector.drill_steps <$> DrillSelector.predefinedDrills !! 2%nat
    = Some steps /\
  (exists s3,
     visionShots (Some started) (Some started) [c1; c2; c3]
       = Normal (Some s3) /\
     DrillSession.completed s3 = true /\
     DrillSession.isActive s3 = false /\
     length (DrillSession.shots s3) = 3%nat /\
     handleShotRecorded (Some started) (Some s3) c4 = Throw TypeError) /\
  visionShots (Some started) (Some started) [c1; c2; c3; c4]
    = Throw TypeError.
Proof. split; [done|]. split; [eexists; repeat split|reflexivity]. Qed.

(** ** Shots from another position *)

(** C3.  For an active session with a current step, the call always
    returns a session whose log is the old log with the new shot appended,
    whatever the shot's position; and when the shot's position differs from
    the current step's, nothing else changes: [currentStepIndex],
    [isActive], [completed] and [steps] (and [id], [name]) are the same.
    This is so through the handler of the latest render, and a handler of
    an earlier render that passes its guard does the same to the
    session. *)
Theorem off_target_shot_is_only_logged
    (s : DrillSession.t) (c : ShotCall) (step : DrillStep.t) :
  DrillSession.isActive s = true ->
  JS.index (DrillSession.steps s) (DrillSession.currentStepIndex s)
    = Some step ->
  (exists s', handleShotRecorded (Some s) (Some s) c = Normal (Some s') /\
     DrillSession.shots s' = DrillSession.shots s ++ [newShotOf c]) /\
  (call_position c <> DrillStep.position step ->
   exists s', handleShotRecorded (Some s) (Some s) c = Normal (Some s') /\
     DrillSession.shots s' = DrillSession.shots s ++ [newShotOf c] /\
     DrillSession.currentStepIndex s' = DrillSession.currentStepIndex s /\
     DrillSession.isActive s' = DrillSession.isActive s /\
     DrillSession.completed s' = DrillSession.completed s /\
     DrillSession.steps s' = DrillSession.steps s /\
     DrillSession.id s' = DrillSession.id s /\
     DrillSession.name s' = DrillSession.name s) /\
  (forall h, DrillSession.isActive h = true ->
     handleShotRecorded (Some h) (Some s) c
     = handleShotRecorded (Some s) (Some s) c).
Proof.
  intros Hact Hstep.
  split; [|split; [|by intros h Hh; apply handle_any_active]];
    accepted s c s' Ht.
  - exists s'. split; [done|]. by apply transition_frame in Ht as (? & _).
  - intros Hpos. exists s'. split; [done|].
    inversion Ht as [step' Hstep'|step' Hstep' Hpos'|step' Hstep' Hpos'
                    |step' Hstep' Hpos']; subst; simpl;
      try done; exfalso; apply Hpos;
      rewrite Hstep in Hstep'; injection Hstep' as <-; exact Hpos'.
Qed.

Lemma off_target_shot_is_only_logged_witness :
  let s := startDrill 1 [DrillStep.mk CENTER None (Some 1)] in
  let c := Build_ShotCall MAKE LEFT 2 3 in
  exists s', handleShotRecorded (Some s) (Some s) c = Normal (Some s') /\
    DrillSession.shots s' = [Shot.mk "2" MAKE LEFT 3].
Proof.
  intros s c.
  destruct (off_target_shot_is_only_logged s c
              (DrillStep.mk CENTER None (Some 1)) eq_refl eq_refl)
    as [[s' [Hs' Hlog]] _].
  exists s'. split; [exact Hs'|exact Hlog].
Defined.

(** ** Monotonicity of the step pointer *)

(** C5.  One call, through whatever handler, either throws a [TypeError]
    (exactly when the handler passes its guard and the state has no current
    step) or returns a session whose [currentStepIndex] is the previous one
    or the previous one plus 1; and over any series of events that returns,
    whatever handlers deliver them, [currentStepIndex] never decreases. *)
Theorem currentStepIndex_monotone (s : DrillSession.t) :
  (forall session c,
     (handleShotRecorded session (Some s) c = Throw TypeError /\
      guardPasses session = true /\
      JS.index (DrillSession.steps s) (DrillSession.currentStepIndex s)
        = None) \/
     (exists s', handleShotRecorded session (Some s) c = Normal (Some s') /\
        (guardPasses session = true ->
         is_Some (JS.index (DrillSession.steps s)
                           (DrillSession.currentStepIndex s))) /\
        (DrillSession.currentStepIndex s' = DrillSession.currentStepIndex s \/
         DrillSession.currentStepIndex s'
           = DrillSession.currentStepIndex s + 1))) /\
  (forall events s', deliverShots (Some s) events = Normal (Some s') ->
     DrillSession.currentStepIndex s <= DrillSession.currentStepIndex s').
Proof.
  split.
  - intros session c.
    destruct (handleShotRecorded_delivered session s c)
      as [Hg|s' Hg Ht|Hg Hnone].
    + right. exists s. split; [done|]. split; [congruence|by left].
    + right. exists s'. split; [done|]. split; [|by eapply transition_index].
      intros _. inversion Ht; eauto.
    + left. auto.
  - intros events s'. apply deliverShots_index_le.
Qed.

Lemma currentStepIndex_monotone_witness :
  let s := startDrill 1 [DrillStep.mk CENTER None (Some 1);
                         DrillStep.mk LEFT None (Some 1)] in
  let events := [(Some s, Build_ShotCall MAKE LEFT 2 2);
                 (Some s, Build_ShotCall MISS CENTER 3 3);
                 (Some s, Build_ShotCall MISS LEFT 4 4)] in
  DrillSession.currentStepIndex s <= 2.
Proof.
  intros s events.
  apply (proj2 (currentStepIndex_monotone s) events
           (DrillSession.finished s (newShotOf <$> (snd <$> events)) 2)).
  reflexivity.
Defined.

(** ** The invariant *)

(** C7.  [startDrill] on a non-empty step list yields a session with
    [0 <= currentStepIndex <= steps.length], [currentStepIndex =
    steps.length] exactly when [completed], and [isActive = !completed].
    A call on a session with these properties, through whatever handler,
    returns a session with them, unless the session is completed and the
    handler passes its guard: then it throws a [TypeError] and there is no
    new session.  So every state reached from a freshly started drill by a
    series of events has these properties, and such a series fails exactly
    when an event comes through a handler that passes its guard after the
    drill has been completed. *)
Theorem invariant_preserved :
  (forall now steps, steps <> [] -> invariant (startDrill now steps)) /\
  (forall s session c, invariant s ->
     (exists s', handleShotRecorded session (Some s) c = Normal (Some s') /\
                 invariant s' /\
                 (DrillSession.completed s = false \/
                  guardPasses session = false)) \/
     (handleShotRecorded session (Some s) c = Throw TypeError /\
      DrillSession.completed s = true /\ guardPasses session = true)) /\
  (forall now steps events s', steps <> [] ->
     deliverShots (Some (startDrill now steps)) events = Normal (Some s') ->
     invariant s') /\
  (forall now steps events, steps <> [] ->
     (exists s', deliverShots (Some (startDrill now steps)) events
                 = Normal (Some s')) \/
     (deliverShots (Some (startDrill now steps)) events = Throw TypeError /\
      exists pre h c post s1,
        events = pre ++ (Some h, c) :: post /\
        DrillSession.isActive h = true /\
        deliverShots (Some (startDrill now steps)) pre = Normal (Some s1) /\
        DrillSession.completed s1 = true)).
Proof.
  split; [apply startDrill_invariant|]. split; [|split].
  - intros s session c Hinv.
    destruct (handleShotRecorded_delivered session s c)
      as [Hg|s' Hg Ht|Hg Hnone].
    + left. exists s. auto.
    + left. exists s'. split; [done|].
      split; [by eapply transition_invariant_any|]. left.
      inversion Ht as [step Hstep|step Hstep|step Hstep|step Hstep];
        by destruct (invariant_step_active s step Hinv Hstep).
    + right. split; [done|]. split; [|done].
      by apply invariant_no_step_completed.
  - intros now steps events s' Hne Hrun.
    eapply deliverShots_invariant; [done|]. by apply startDrill_invariant.
  - intros now steps events Hne.
    pose proof (startDrill_invariant now steps Hne) as Hinv.
    destruct (deliverShots (Some (startDrill now steps)) events)
      as [o|[]] eqn:Hrun.
    + left. destruct (deliverShots_Some _ _ _ Hrun) as [s' ->]. eauto.
    + right. split; [done|]. by apply (deliverShots_throws_iff events).
Qed.

Lemma invariant_preserved_witness :
  invariant (DrillSession.finished
               (startDrill 1 [DrillStep.mk CENTER None (Some 1)])
               [newShotOf (Build_ShotCall MAKE CENTER 2 2)] 1).
Proof.
  apply (proj1 (proj2 (proj2 invariant_preserved)) 1
           [DrillStep.mk CENTER None (Some 1)]
           [(Some (startDrill 1 [DrillStep.mk CENTER None (Some 1)]),
             Build_ShotCall MAKE CENTER 2 2)]);
    [discriminate|reflexivity].
Defined.

(** ** The terminal transition *)

Lemma call_completed_stays session s c s' :
  handleShotRecorded session (Some s) c = Normal (Some s') ->
  DrillSession.completed s = true -> DrillSession.completed s' = true.
Proof.
  intros (s2 & [= <-] & [[_ ->]|[_ Ht]])%delivered_Normal_inv; [done|].
  by eapply transition_completed_stays.
Qed.

Lemma risingEdges_completed events : forall s,
  DrillSession.completed s = true ->
  risingEdges true (isCompleted <$> history (Some s) events) = 0%nat.
Proof.
  induction events as [|event events IH]; intros s Hs; cbn [history]; [done|].
  destruct (handleShotRecorded event.1 (Some s) event.2) as [o|e] eqn:Hh;
    [|done].
  destruct (delivered_Normal_inv _ _ _ _ Hh) as (s1 & -> & _).
  rewrite fmap_cons. cbn [risingEdges isCompleted negb andb].
  pose proof (call_completed_stays _ _ _ _ Hh Hs) as Hs1.
  rewrite Hs1, (IH s1 Hs1). done.
Qed.

Lemma risingEdges_at_most_one events : forall s,
  (risingEdges (DrillSession.completed s)
               (isCompleted <$> history (Some s) events) <= 1)%nat.
Proof.
  induction events as [|event events IH]; intros s; cbn [history];
    [simpl; lia|].
  destruct (handleShotRecorded event.1 (Some s) event.2) as [o|e] eqn:Hh;
    [|simpl; lia].
  destruct (delivered_Normal_inv _ _ _ _ Hh) as (s1 & -> & _).
  rewrite fmap_cons. cbn [risingEdges isCompleted].
  destruct (DrillSession.completed s1) eqn:Hs1.
  - rewrite risingEdges_completed by done. case_match; lia.
  - rewrite andb_false_r. specialize (IH s1). rewrite Hs1 in IH. lia.
Qed.

(** The history of a series holds one state per event when the series
    returns, and fewer when it throws. *)
Lemma history_length events : forall s,
  (length (history (Some s) events) <= length events)%nat /\
  (length (history (Some s) events) = length events <->
   exists s', deliverShots (Some s) events = Normal (Some s')).
Proof.
  induction events as [|event events IH]; intros s.
  - simpl. split; [lia|]. split; eauto.
  - cbn [history]. rewrite deliverShots_cons.
    destruct (handleShotRecorded event.1 (Some s) event.2) as [o|e] eqn:Hh.
    + destruct (delivered_Normal_inv _ _ _ _ Hh) as (s1 & -> & _).
      cbn [JS.bind]. destruct (IH s1) as [Hle Hiff]. simpl.
      split; [lia|]. rewrite <- Hiff. lia.
    + simpl. split; [lia|]. split; [lia|]. by intros [s' ?].
Qed.

(** C6.  Along any series of events on a session, through whatever
    handlers, [completed] goes from false to true at most once; a call
    that returns on a session with [completed] true returns one with
    [completed] true, also over a series; on the call that turns
    [completed] from false to true the new [currentStepIndex] is the old
    one plus 1 and equals [steps.length] (the step completed was the last),
    and [isActive] becomes false; and that call is made: when the current
    step is the last one, a shot that completes it, delivered through a
    handler that passes its guard, returns the completed session. *)
Theorem completed_at_most_once (s : DrillSession.t) :
  (forall events,
     (risingEdges (DrillSession.completed s)
                  (isCompleted <$> history (Some s) events) <= 1)%nat) /\
  (forall session c s',
     handleShotRecorded session (Some s) c = Normal (Some s') ->
     DrillSession.completed s = true -> DrillSession.completed s' = true) /\
  (forall events s', deliverShots (Some s) events = Normal (Some s') ->
     DrillSession.completed s = true -> DrillSession.completed s' = true) /\
  (forall session c s',
     handleShotRecorded session (Some s) c = Normal (Some s') ->
     DrillSession.completed s = false -> DrillSession.completed s' = true ->
     DrillSession.currentStepIndex s' = JS.len (DrillSession.steps s') /\
     DrillSession.currentStepIndex s' = DrillSession.currentStepIndex s + 1 /\
     DrillSession.isActive s' = false) /\
  (forall session c step,
     guardPasses session = true ->
     JS.index (DrillSession.steps s) (DrillSession.currentStepIndex s)
       = Some step ->
     DrillSession.currentStepIndex s + 1 = JS.len (DrillSession.steps s) ->
     call_position c = DrillStep.position step ->
     stepComplete step
       (attemptsAt (DrillStep.position step)
                   (DrillSession.shots s ++ [newShotOf c]))
       (makesAt (DrillStep.position step)
                (DrillSession.shots s ++ [newShotOf c])) = true ->
     handleShotRecorded session (Some s) c
     = Normal (Some (DrillSession.finished s
                       (DrillSession.shots s ++ [newShotOf c])
                       (DrillSession.currentStepIndex s + 1)))).
Proof.
  split; [|split; [|split; [|split]]].
  - intros events. apply risingEdges_at_most_one.
  - intros session c s'. apply call_completed_stays.
  - intros events s'. apply deliverShots_completed_stays.
  - intros session c s' (s2 & [= <-] & [[_ ->]|[_ Ht]])%delivered_Normal_inv;
      [congruence|]. by eapply transition_terminal.
  - intros session c step Hg Hstep Hlast Hpos Hdone.
    rewrite handle_guard_passes by done.
    assert (Ht : transition s (newShotOf c)
                   (DrillSession.finished s
                      (DrillSession.shots s ++ [newShotOf c])
                      (DrillSession.currentStepIndex s + 1))).
    { apply (DrillFinished s _ step); [done|done|done|lia]. }
    apply advance_transition in Ht. by rewrite Ht.
Qed.

Lemma completed_at_most_once_witness :
  let s := startDrill 1 [DrillStep.mk CENTER None (Some 1)] in
  let s' := DrillSession.finished s [Shot.mk "2" MAKE CENTER 2] 1 in
  DrillSession.currentStepIndex s' = JS.len (DrillSession.steps s') /\
  DrillSession.currentStepIndex s' = DrillSession.currentStepIndex s + 1 /\
  DrillSession.isActive s' = false.
Proof.
  intros s s'.
  apply (proj1 (proj2 (proj2 (proj2 (completed_at_most_once s))))
           (Some s) (Build_ShotCall MAKE CENTER 2 2) s'); reflexivity.
Defined.

(** ** Completion policies *)

(** An accepted shot moves to the next step exactly when it is taken at the
    current step's position and [stepComplete] holds for the counters of
    the log that includes it; otherwise the pointer stays. *)
Lemma accepted_shot s c step :
  DrillSession.isActive s = true ->
  JS.index (DrillSession.steps s) (DrillSession.currentStepIndex s)
    = Some step ->
  exists s', handleShotRecorded (Some s) (Some s) c = Normal (Some s') /\
    DrillSession.shots s' = DrillSession.shots s ++ [newShotOf c] /\
    (DrillSession.currentStepIndex s' = DrillSession.currentStepIndex s \/
     DrillSession.currentStepIndex s' = DrillSession.currentStepIndex s + 1) /\
    (DrillSession.currentStepIndex s' = DrillSession.currentStepIndex s + 1
     <-> call_position c = DrillStep.position step /\
         stepComplete step
           (attemptsAt (DrillStep.position step) (DrillSession.shots s'))
           (makesAt (DrillStep.position step) (DrillSession.shots s'))
           = true).
Proof.
  intros Hact Hstep.
  accepted s c s' Ht.
  exists s'. split; [done|].
  split; [by apply transition_frame in Ht as (? & _)|].
  split; [by eapply transition_index|].
  inversion Ht as [step' Hstep' Hpos|step' Hstep' Hpos Hdone
                  |step' Hstep' Hpos Hdone Hlt|step' Hstep' Hpos Hdone Hge];
    subst; simpl; rewrite Hstep in Hstep'; injection Hstep' as <-.
  - split; [lia|]. by intros [? _].
  - split; [lia|]. intros [_ ?]. congruence.
  - done.
  - done.
Qed.

(** A step with an attempt threshold and no make threshold. *)
Lemma attempt_only_policy step T attempts makes :
  DrillStep.targetAttempts step = Some T -> T <> 0 ->
  DrillStep.targetMakes step = None ->
  stepComplete step attempts makes = true <-> T <= Z.of_nat attempts.
Proof.
  intros HA HT HM. rewrite stepComplete_spec, HA, HM, orb_false_r.
  rewrite reached_spec. split.
  - by intros (n & [= <-] & _ & Hle).
  - intros Hle. by exists T.
Qed.

(** A step with a make threshold and no attempt threshold. *)
Lemma make_only_policy step T attempts makes :
  DrillStep.targetMakes step = Some T -> T <> 0 ->
  DrillStep.targetAttempts step = None ->
  stepComplete step attempts makes = true <-> T <= Z.of_nat makes.
Proof.
  intros HM HT HA. rewrite stepComplete_spec, HA, HM, orb_false_l.
  rewrite reached_spec. split.
  - by intros (n & [= <-] & _ & Hle).
  - intros Hle. by exists T.
Qed.


(** A step that carries both thresholds, which no program built by the
    drill selector does: with [targetAttempts = 5] and [targetMakes = 1] at
    CENTER, a single MAKE at CENTER ends the step although only 1 of the 5
    attempts has been logged. *)
Lemma make_threshold_preempts_attempt_threshold :
  let step := DrillStep.mk CENTER (Some 1) (Some 5) in
  let s := startDrill 1 [step] in
  let c := Build_ShotCall MAKE CENTER 2 2 in
  exists s', handleShotRecorded (Some s) (Some s) c = Normal (Some s') /\
    attemptsAt CENTER (DrillSession.shots s') = 1%nat /\
    DrillSession.currentStepIndex s' = DrillSession.currentStepIndex s + 1 /\
    DrillSession.completed s' = true.
Proof. eexists. repeat split. Qed.

(** The two counters, written out as counts over the whole log. *)
Lemma attemptsAt_filter p log :
  attemptsAt p log = length (filter (fun sh => Shot.position sh = p) log).
Proof. done. Qed.

Lemma makesAt_filter p log :
  makesAt p log =
  length (filter (fun sh => Shot.position sh = p /\ Shot.result sh = MAKE)
                 log).
Proof.
  unfold makesAt, madeShots, relevantShots.
  induction log as [|sh log IH]; [done|].
  rewrite (filter_cons _ sh log).
  rewrite (filter_cons (fun sh => Shot.position sh = p /\ _) sh log).
  destruct (decide (Shot.position sh = p)) as [Hp|Hp].
  - rewrite filter_cons. destruct (decide (Shot.result sh = MAKE)) as [Hr|Hr].
    + rewrite decide_True by done. simpl. by rewrite IH.
    + rewrite decide_False by (by intros [_ ?]). done.
  - rewrite decide_False by (by intros [? _]). done.
Qed.

Lemma accepted_shot_any h s c step :
  DrillSession.isActive h = true ->
  DrillSession.isActive s = true ->
  JS.index (DrillSession.steps s) (DrillSession.currentStepIndex s)
    = Some step ->
  exists s', handleShotRecorded (Some h) (Some s) c = Normal (Some s') /\
    DrillSession.shots s' = DrillSession.shots s ++ [newShotOf c] /\
    (DrillSession.currentStepIndex s' = DrillSession.currentStepIndex s \/
     DrillSession.currentStepIndex s' = DrillSession.currentStepIndex s + 1) /\
    (DrillSession.currentStepIndex s' = DrillSession.currentStepIndex s + 1
     <-> call_position c = DrillStep.position step /\
         stepComplete step
           (attemptsAt (DrillStep.position step) (DrillSession.shots s'))
           (makesAt (DrillStep.position step) (DrillSession.shots s'))
           = true).
Proof.
  intros Hh Hact Hstep. rewrite (handle_any_active h s c Hh Hact).
  by apply accepted_shot.
Qed.






(** "Sniper School", the second predefined drill, with shots reported by
    the vision service: three makes from CENTER while LEFT is the current
    step, then three makes from LEFT.  CENTER is now the current step and
    the log holds 3 makes at CENTER, which reached that count on a call
    that did not complete the step.  The next shot from CENTER is a MISS,
    and it completes the step. *)
Lemma miss_completes_make_step :
  let steps := [DrillStep.mk LEFT (Some 3) None;
                DrillStep.mk CENTER (Some 3) None;
                DrillStep.mk RIGHT (Some 3) None] in
  let started := startDrill 1 steps in
  let make p n := Build_ShotCall MAKE p n n in
  let count log :=
    length (filter (fun sh => Shot.position sh = CENTER /\
                              Shot.result sh = MAKE) log) in
  DrillSelector.drill_steps <$> DrillSelector.predefinedDrills !! 1%nat
    = Some steps /\
  exists s0,
    visionShots (Some started) (Some started)
      [make CENTER 2; make CENTER 3; make CENTER 4] = Normal (Some s0) /\
    count (DrillSession.shots s0) = 3%nat /\
    DrillSession.currentStepIndex s0 = 0 /\
    exists s1,
      visionShots (Some started) (Some s0)
        [make LEFT 5; make LEFT 6; make LEFT 7] = Normal (Some s1) /\
      DrillSession.isActive s1 = true /\
      JS.index (DrillSession.steps s1) (DrillSession.currentStepIndex s1)
        = Some (DrillStep.mk CENTER (Some 3) None) /\
      exists s2,
        handleShotRecorded (Some started) (Some s1)
          (Build_ShotCall MISS CENTER 8 8) = Normal (Some s2) /\
        count (DrillSession.shots s2) = 3%nat /\
        DrillSession.currentStepIndex s2
          = DrillSession.currentStepIndex s1 + 1.
Proof.
  intros steps started make count. split; [done|].
  run_call. do 2 (split; [by vm_compute|]).
  run_call. do 2 (split; [by vm_compute|]).
  run_call. split; by vm_compute.
Qed.

(** C4 (amended).  For an active session whose current step has make
    threshold [T >= 1] and no attempt threshold, at zone [Z], a call
    through a handler that passes its guard logs the shot; the step is
    completed on that call exactly when the shot is at [Z] and the log
    then holds at least [T] MAKE shots at [Z]; a MISS, and a shot at
    another zone, leave the number of makes at [Z] as it was.  So while
    fewer than [T] makes at [Z] are logged the step is completed exactly
    on the MAKE at [Z] that brings the count to [T], never on a MISS; and
    when [T] makes at [Z] are already logged (from earlier steps) the step
    is completed by the next shot at [Z], a MISS included. *)
Theorem make_policy_counts_only_makes
    (h s : DrillSession.t) (c : ShotCall) (step : DrillStep.t) (T : Z) :
  DrillSession.isActive h = true ->
  DrillSession.isActive s = true ->
  JS.index (DrillSession.steps s) (DrillSession.currentStepIndex s)
    = Some step ->
  DrillStep.targetMakes step = Some T -> 1 <= T ->
  DrillStep.targetAttempts step = None ->
  let Z0 := DrillStep.position step in
  let makesAtZ log :=
    Z.of_nat (length (filter (fun sh => Shot.position sh = Z0 /\
                                        Shot.result sh = MAKE) log)) in
  exists s', handleShotRecorded (Some h) (Some s) c = Normal (Some s') /\
    DrillSession.shots s' = DrillSession.shots s ++ [newShotOf c] /\
    (DrillSession.currentStepIndex s' = DrillSession.currentStepIndex s \/
     DrillSession.currentStepIndex s' = DrillSession.currentStepIndex s + 1) /\
    (DrillSession.currentStepIndex s' = DrillSession.currentStepIndex s + 1
     <-> call_position c = Z0 /\ T <= makesAtZ (DrillSession.shots s')) /\
    (call_result c = MISS \/ call_position c <> Z0 ->
     makesAtZ (DrillSession.shots s') = makesAtZ (DrillSession.shots s)) /\
    (call_result c = MAKE -> call_position c = Z0 ->
     makesAtZ (DrillSession.shots s') = makesAtZ (DrillSession.shots s) + 1) /\
    (makesAtZ (DrillSession.shots s) < T ->
     (DrillSession.currentStepIndex s' = DrillSession.currentStepIndex s + 1
      <-> call_position c = Z0 /\ call_result c = MAKE /\
          makesAtZ (DrillSession.shots s) + 1 = T)) /\
    (T <= makesAtZ (DrillSession.shots s) ->
     (DrillSession.currentStepIndex s' = DrillSession.currentStepIndex s + 1
      <-> call_position c = Z0)).
Proof.
  intros Hh Hact Hstep HM HT HA Z0 makesAtZ.
  destruct (accepted_shot_any h s c step Hh Hact Hstep)
    as (s' & Hcall & Hlog & Hidx & Hiff).
  exists s'. split; [done|]. split; [done|]. split; [done|].
  rewrite (make_only_policy step T), makesAt_filter in Hiff by (done || lia).
  subst makesAtZ Z0. cbv beta.
  split; [done|].
  rewrite Hiff, Hlog, filter_app, length_app, filter_cons, filter_nil.
  simpl. clear Hiff Hidx.
  case_decide as Hc; simpl.
  - destruct Hc as [Hp Hr].
    split; [intros [?|?]; congruence|].
    split; [lia|]. split; intros Hcount.
    + split; [intros [_ ?]|intros (_ & _ & ?); split; [done|]]; [|lia].
      repeat split; [done..|lia].
    + split; [by intros [? _]|]. intros _. split; [done|lia].
  - split; [lia|]. split; [tauto|]. split; intros Hcount.
    + split; [lia|]. intros (? & ? & _). tauto.
    + split; [by intros [? _]|]. intros ?. split; [done|lia].
Qed.

Lemma make_policy_counts_only_makes_witness :
  let step := DrillStep.mk LEFT (Some 2) None in
  let s := startDrill 1 [step; DrillStep.mk RIGHT (Some 2) None] in
  let c := Build_ShotCall MISS LEFT 2 2 in
  exists s', handleShotRecorded (Some s) (Some s) c = Normal (Some s') /\
    DrillSession.shots s' = DrillSession.shots s ++ [newShotOf c] /\
    DrillSession.currentStepIndex s' = DrillSession.currentStepIndex s.
Proof.
  intros step s c.
  destruct (make_policy_counts_only_makes s s c step 2
              eq_refl eq_refl eq_refl eq_refl ltac:(lia) eq_refl)
    as (s' & Hh & Hlog & Hidx & Hiff & _).
  exists s'. split; [exact Hh|]. split; [exact Hlog|].
  destruct Hidx as [Hsame|Hnext]; [exact Hsame|].
  apply Hiff in Hnext as [_ Hle]. rewrite Hlog in Hle.
  vm_compute in Hle. contradiction Hle. reflexivity.
Defined.

(** ** Counters run over the whole log *)

Lemma handleShots_app cs1 cs2 : forall session,
  handleShots session (cs1 ++ cs2) =
  JS.bind (handleShots session cs1) (fun s' => handleShots s' cs2).
Proof.
  induction cs1 as [|c cs1 IH]; intros session; [done|].
  rewrite <- app_comm_cons. cbn [handleShots].
  destruct (handleShotRecorded session session c) as [o|e]; [|done].
  cbn [JS.bind]. apply IH.
Qed.

(** While the current step's attempt threshold is not reached, a series
    of calls only grows the log. *)
Lemma attempts_pending cs : forall s step T,
  DrillSession.isActive s = true ->
  JS.index (DrillSession.steps s) (DrillSession.currentStepIndex s)
    = Some step ->
  DrillStep.targetAttempts step = Some T -> T <> 0 ->
  DrillStep.targetMakes step = None ->
  Z.of_nat (attemptsAt (DrillStep.position step)
              (DrillSession.shots s ++ (newShotOf <$> cs))) < T ->
  handleShots (Some s) cs =
  Normal (Some (DrillSession.with_shots s
                  (DrillSession.shots s ++ (newShotOf <$> cs)))).
Proof.
  induction cs as [|c cs IH]; intros s step T Hact Hstep HA HT HM Hlt.
  - simpl. rewrite app_nil_r. by destruct s.
  - cbn [handleShots]. rewrite fmap_cons, cons_middle, app_assoc in Hlt.
    rewrite fmap_cons, (cons_middle _ (DrillSession.shots s)), app_assoc.
    assert (Hnow : Z.of_nat (attemptsAt (DrillStep.position step)
                     (DrillSession.shots s ++ [newShotOf c])) < T).
    { unfold attemptsAt, relevantShots in *.
      rewrite filter_app, length_app in Hlt. lia. }
    assert (Hh : handleShotRecorded (Some s) (Some s) c =
                 Normal (Some (DrillSession.with_shots s
                                 (DrillSession.shots s ++ [newShotOf c])))).
    { accepted s c s' Ht.
      f_equal. f_equal.
      inversion Ht as [step' Hstep' Hpos|step' Hstep' Hpos Hdone
                      |step' Hstep' Hpos Hdone Hlt'|step' Hstep' Hpos Hdone Hge];
        subst; try done; rewrite Hstep in Hstep'; injection Hstep' as <-;
        apply (attempt_only_policy step T) in Hdone; try done; lia. }
    rewrite Hh. cbn [JS.bind].
    rewrite (IH _ step T); try done.
Qed.

Lemma handle_off_target s c step :
  DrillSession.isActive s = true ->
  JS.index (DrillSession.steps s) (DrillSession.currentStepIndex s)
    = Some step ->
  call_position c <> DrillStep.position step ->
  handleShotRecorded (Some s) (Some s) c =
  Normal (Some (DrillSession.with_shots s
                  (DrillSession.shots s ++ [newShotOf c]))).
Proof.
  intros Hact Hstep Hpos. rewrite handle_active by done.
  unfold advance. rewrite Hstep. by case_decide.
Qed.

(** Shots away from the current step's position only grow the log. *)
Lemma off_target_run cs : forall s step,
  DrillSession.isActive s = true ->
  JS.index (DrillSession.steps s) (DrillSession.currentStepIndex s)
    = Some step ->
  Forall (fun c => call_position c <> DrillStep.position step) cs ->
  handleShots (Some s) cs =
  Normal (Some (DrillSession.with_shots s
                  (DrillSession.shots s ++ (newShotOf <$> cs)))).
Proof.
  induction cs as [|c cs IH]; intros s step Hact Hstep Hall.
  - simpl. rewrite app_nil_r. by destruct s.
  - apply Forall_cons in Hall as [Hc Hall]. cbn [handleShots].
    rewrite (handle_off_target s c step) by done. cbn [JS.bind].
    rewrite (IH _ step) by done. simpl.
    by rewrite <- app_assoc.
Qed.

Lemma attemptsAt_off_target p cs :
  Forall (fun c => call_position c <> p) cs ->
  attemptsAt p (newShotOf <$> cs) = 0%nat.
Proof.
  induction 1 as [|c cs Hc _ IH]; [done|].
  rewrite fmap_cons. unfold attemptsAt, relevantShots in *.
  rewrite filter_cons. by case_decide.
Qed.

Lemma attemptsAt_app p log1 log2 :
  attemptsAt p (log1 ++ log2) = (attemptsAt p log1 + attemptsAt p log2)%nat.
Proof. unfold attemptsAt, relevantShots. by rewrite filter_app, length_app. Qed.

(** C10.  Program [[{Z, targetAttempts = T}; {Z, targetAttempts = T}]] with
    [T >= 1].  After any calls [cs1] holding [T - 1] shots at [Z], the shot
    [c1] at [Z] completes the first step; after any further calls [cs2]
    away from [Z] the session is still at step 1, active; and the next shot
    [c2] at [Z] completes the second step and the drill, with [T + 1] shots
    at [Z] in the log, because the counter for the second step runs over
    the whole log. *)
Theorem repeated_position_counts_earlier_shots
    (Z0 : CourtPosition) (T now : Z) (cs1 cs2 : list ShotCall)
    (c1 c2 : ShotCall) :
  let step := DrillStep.mk Z0 None (Some T) in
  1 <= T ->
  Z.of_nat (attemptsAt Z0 (newShotOf <$> cs1)) = T - 1 ->
  call_position c1 = Z0 ->
  Forall (fun c => call_position c <> Z0) cs2 ->
  call_position c2 = Z0 ->
  (exists s1,
     handleShots (Some (startDrill now [step; step])) (cs1 ++ [c1] ++ cs2)
       = Normal (Some s1) /\
     DrillSession.currentStepIndex s1 = 1 /\
     DrillSession.isActive s1 = true /\
     DrillSession.completed s1 = false /\
     Z.of_nat (attemptsAt Z0 (DrillSession.shots s1)) = T) /\
  (exists s2,
     handleShots (Some (startDrill now [step; step]))
                 (cs1 ++ [c1] ++ cs2 ++ [c2]) = Normal (Some s2) /\
     DrillSession.currentStepIndex s2 = 2 /\
     DrillSession.completed s2 = true /\
     Z.of_nat (attemptsAt Z0 (DrillSession.shots s2)) = T + 1).
Proof.
  intros step HT Hcs1 Hc1 Hcs2 Hc2.
  set (s0 := startDrill now [step; step]).
  (* the first T - 1 shots at Z0 *)
  assert (H1 : handleShots (Some s0) cs1 =
               Normal (Some (DrillSession.with_shots s0 (newShotOf <$> cs1)))).
  { rewrite (attempts_pending cs1 s0 step T); try done; simpl; lia. }
  set (sa := DrillSession.with_shots s0 (newShotOf <$> cs1)) in *.
  (* the T-th shot at Z0 *)
  set (sb := DrillSession.with_shots_index sa
               (DrillSession.shots sa ++ [newShotOf c1]) 1).
  assert (Hb : attemptsAt Z0 (DrillSession.shots sb)
               = S (attemptsAt Z0 (newShotOf <$> cs1))).
  { simpl. rewrite attemptsAt_snoc. simpl. case_decide; [lia|done]. }
  assert (H2 : handleShotRecorded (Some sa) (Some sa) c1 = Normal (Some sb)).
  { rewrite handle_active by done.
    rewrite (proj2 (advance_transition (newShotOf c1) sa sb)); [done|].
    apply (NextStep sa _ step); [done|done| |unfold JS.len; simpl; lia].
    apply (attempt_only_policy step T); [done|lia|done|].
    simpl in Hb. simpl. rewrite Hb. lia. }
  (* shots from elsewhere *)
  set (sc := DrillSession.with_shots sb
               (DrillSession.shots sb ++ (newShotOf <$> cs2))).
  assert (Hc : attemptsAt Z0 (DrillSession.shots sc)
               = attemptsAt Z0 (DrillSession.shots sb)).
  { unfold sc. cbn [DrillSession.shots DrillSession.with_shots].
    rewrite attemptsAt_app, attemptsAt_off_target by done. lia. }
  assert (H3 : handleShots (Some sb) cs2 = Normal (Some sc)).
  { by apply (off_target_run cs2 sb step). }
  (* the first shot at Z0 of the second step *)
  set (sd := DrillSession.finished sc
               (DrillSession.shots sc ++ [newShotOf c2]) 2).
  assert (Hd : attemptsAt Z0 (DrillSession.shots sd)
               = S (attemptsAt Z0 (DrillSession.shots sc))).
  { unfold sd. cbn [DrillSession.shots DrillSession.finished].
    rewrite attemptsAt_snoc. simpl. case_decide; [lia|done]. }
  assert (H4 : handleShotRecorded (Some sc) (Some sc) c2 = Normal (Some sd)).
  { rewrite handle_active by done.
    rewrite (proj2 (advance_transition (newShotOf c2) sc sd)); [done|].
    apply (DrillFinished sc _ step); [done|done| |unfold JS.len; simpl; lia].
    apply (attempt_only_policy step T); [done|lia|done|].
    unfold sd in Hd. cbn [DrillSession.shots DrillSession.finished] in Hd.
    change (DrillStep.position step) with Z0. rewrite Hd, Hc, Hb. lia. }
  split.
  - exists sc. rewrite handleShots_app, H1. cbn [JS.bind app handleShots].
    rewrite H2. cbn [JS.bind]. rewrite H3.
    repeat split. rewrite Hc, Hb. lia.
  - exists sd. rewrite handleShots_app, H1. cbn [JS.bind app handleShots].
    rewrite H2. cbn [JS.bind]. rewrite handleShots_app, H3.
    cbn [JS.bind handleShots]. rewrite H4.
    repeat split. rewrite Hd, Hc, Hb. lia.
Qed.

Lemma repeated_position_counts_earlier_shots_witness :
  let step := DrillStep.mk CENTER None (Some 2) in
  exists s2,
    handleShots (Some (startDrill 1 [step; step]))
                ([Build_ShotCall MISS CENTER 2 2]
                 ++ [Build_ShotCall MAKE CENTER 3 3]
                 ++ [Build_ShotCall MAKE LEFT 4 4]
                 ++ [Build_ShotCall MISS CENTER 5 5]) = Normal (Some s2) /\
    DrillSession.currentStepIndex s2 = 2 /\
    DrillSession.completed s2 = true /\
    Z.of_nat (attemptsAt CENTER (DrillSession.shots s2)) = 2 + 1.
Proof.
  intros step.
  apply (proj2 (repeated_position_counts_earlier_shots CENTER 2 1
                  [Build_ShotCall MISS CENTER 2 2]
                  [Build_ShotCall MAKE LEFT 4 4]
                  (Build_ShotCall MAKE CENTER 3 3)
                  (Build_ShotCall MISS CENTER 5 5)
                  ltac:(lia) eq_refl eq_refl
                  ltac:(repeat constructor; discriminate) eq_refl)).
Defined.

(** ** The instruction line *)




(** [getActivePosition] is [undefined] without a session, for a completed
    session and when the step pointer is out of range; otherwise it is the
    current step's position. *)
Lemma getActivePosition_cases :
  getActivePosition None = None /\
  (forall s, DrillSession.completed s = true ->
     getActivePosition (Some s) = None) /\
  (forall s, DrillSession.completed s = false ->
     getActivePosition (Some s) =
     DrillStep.position <$>
       JS.index (DrillSession.steps s) (DrillSession.currentStepIndex s)) /\
  (forall s, DrillSession.currentStepIndex s = JS.len (DrillSession.steps s)
     -> getActivePosition (Some s) = None).
Proof.
  split; [done|]. unfold getActivePosition.
  split; [|split]; intros s Hs.
  - by rewrite Hs.
  - by rewrite Hs.
  - case_match; [done|].
    destruct (JS.index _ _) as [step|] eqn:Hstep; [|done].
    apply index_Some_bounds in Hstep. lia.
Qed.

(** ** Program construction *)

(** [startDrill] accepts the empty program, and the first shot of that
    session throws while the drill is shown as running; it also accepts a
    step without any threshold and a step with both. *)
Lemma invalid_program_reaches_engine :
  let s := startDrill 1 [] in
  DrillSession.isActive s = true /\
  DrillSession.completed s = false /\
  handleShotRecorded (Some s) (Some s) (Build_ShotCall MAKE CENTER 2 2)
    = Throw TypeError /\
  DrillSession.isActive (startDrill 1 [DrillStep.mk CENTER None None]) = true /\
  DrillSession.isActive
    (startDrill 1 [DrillStep.mk CENTER (Some 1) (Some 5)]) = true /\
  DrillSession.isActive
    (startDrill 1 [DrillStep.mk CENTER None (Some (-3))]) = true.
Proof. repeat split. Qed.

(** The threshold typed into the builder is never stored as 0, but a
    negative number is stored as it is. *)
Lemma onThresholdChange_nonzero parsed st :
  let st' := DrillSelector.onThresholdChange parsed st in
  (DrillSelector.isMakeBased st = true -> DrillSelector.targetMakes st' <> 0)
  /\ (DrillSelector.isMakeBased st = false ->
      DrillSelector.shotsPerPosition st' <> 0).
Proof.
  unfold DrillSelector.onThresholdChange, JS.truthy.
  destruct parsed as [n|]; simpl.
  - destruct (Z.eqb_spec n 0); split; intros ->; simpl; done.
  - split; intros ->; simpl; done.
Qed.

Example onThresholdChange_negative :
  DrillSelector.shotsPerPosition
    (DrillSelector.onThresholdChange (Some (-5)) DrillSelector.initial) = -5.
Proof. reflexivity. Qed.

Lemma customSteps_positions st (l : list CourtPosition) :
  DrillStep.position <$> map (DrillSelector.customStep st) l = l.
Proof.
  induction l as [|pos l IH]; [done|]. simpl. f_equal; [|done].
  unfold DrillSelector.customStep. by case_match.
Qed.

(** C9 (amended).  [startDrill] checks nothing: whatever the step list, it
    returns an active, not completed session at step 0 with an empty log
    and that list as its program.  The custom builder refuses only an empty
    selection (an alert, no session); from a non-empty selection it starts
    a program with one step per selected position, in order, each with
    exactly one threshold field set; and every predefined program is
    non-empty with exactly one threshold, at least 1, per step. *)
Theorem startDrill_accepts_any_program :
  (forall now steps,
     let s := startDrill now steps in
     DrillSession.steps s = steps /\
     DrillSession.currentStepIndex s = 0 /\
     DrillSession.shots s = [] /\
     DrillSession.isActive s = true /\
     DrillSession.completed s = false) /\
  (forall st, DrillSelector.selectedPositions st = [] ->
     DrillSelector.handleCreateCustom st =
     (DrillSelector.Alert "Please select at least one position", st)) /\
  (forall st, DrillSelector.selectedPositions st <> [] ->
     exists steps,
       DrillSelector.handleCreateCustom st =
       (DrillSelector.OnStartDrill steps, DrillSelector.resetCustom st) /\
       steps <> [] /\
       DrillStep.position <$> steps = DrillSelector.selectedPositions st /\
       Forall oneThreshold steps) /\
  Forall (fun d => DrillSelector.drill_steps d <> [] /\
                   Forall wellFormedStep (DrillSelector.drill_steps d))
         DrillSelector.predefinedDrills.
Proof.
  split; [done|]. split; [|split].
  - intros st Hsel. unfold DrillSelector.handleCreateCustom.
    by rewrite Hsel.
  - intros st Hsel. eexists. unfold DrillSelector.handleCreateCustom.
    case_decide as Hlen.
    { by apply length_zero_iff_nil in Hlen. }
    split; [done|]. split; [|split].
    + destruct (DrillSelector.selectedPositions st); done.
    + apply customSteps_positions.
    + apply Forall_fmap, Forall_true. intros pos. simpl.
      unfold DrillSelector.customStep, oneThreshold. case_match; simpl; eauto.
  - unfold DrillSelector.predefinedDrills.
    repeat first [ apply Forall_nil | apply Forall_cons; split
                 | apply conj ];
      first [ exact I
            | discriminate
            | left; eexists; split; [|split; reflexivity]; lia
            | right; eexists; split; [|split; reflexivity]; lia ].
Qed.

Lemma startDrill_accepts_any_program_witness :
  let st := DrillSelector.mkState true [LEFT; RIGHT] 5 true 3 in
  exists steps,
    DrillSelector.handleCreateCustom st =
    (DrillSelector.OnStartDrill steps, DrillSelector.resetCustom st) /\
    steps <> [] /\
    DrillStep.position <$> steps = DrillSelector.selectedPositions st /\
    Forall oneThreshold steps.
Proof.
  intros st.
  apply (proj1 (proj2 (proj2 startDrill_accepts_any_program)) st).
  discriminate.
Defined.

(** * Further properties of the code *)

(** ** The shot log over a series of calls *)

Lemma handleShots_cons session c cs :
  handleShots session (c :: cs) =
  JS.bind (handleShotRecorded session session c) (fun s' => handleShots s' cs).
Proof. done. Qed.

(** X1.  One call on a state [s]: through a handler whose guard fails it
    returns [s] as it is; through a handler whose guard passes, on a state
    with a current step, it returns a session whose log is the old log
    followed by the new shot, with the program, [id] and [name] untouched;
    through a handler whose guard passes, on a state without a current
    step, it throws a [TypeError].  So when a series of events returns,
    the log it leaves is the old log followed by the shots of exactly the
    events whose handler passed its guard, in order; the program, [id] and
    [name] are untouched, and the step pointer advanced by at most the
    number of shots logged. *)
Theorem shot_log_extends_by_delivered_shots (s : DrillSession.t) :
  (forall session c,
     (guardPasses session = false /\
      handleShotRecorded session (Some s) c = Normal (Some s)) \/
     (guardPasses session = true /\
      is_Some (JS.index (DrillSession.steps s)
                        (DrillSession.currentStepIndex s)) /\
      exists s', handleShotRecorded session (Some s) c = Normal (Some s') /\
        DrillSession.shots s' = DrillSession.shots s ++ [newShotOf c] /\
        DrillSession.steps s' = DrillSession.steps s /\
        DrillSession.id s' = DrillSession.id s /\
        DrillSession.name s' = DrillSession.name s) \/
     (guardPasses session = true /\
      JS.index (DrillSession.steps s) (DrillSession.currentStepIndex s)
        = None /\
      handleShotRecorded session (Some s) c = Throw TypeError)) /\
  (forall events s',
     deliverShots (Some s) events = Normal (Some s') ->
     let logged :=
       newShotOf <$>
         (snd <$> filter (fun event => guardPasses event.1 = true) events) in
     DrillSession.shots s' = DrillSession.shots s ++ logged /\
     DrillSession.steps s' = DrillSession.steps s /\
     DrillSession.id s' = DrillSession.id s /\
     DrillSession.name s' = DrillSession.name s /\
     DrillSession.currentStepIndex s <= DrillSession.currentStepIndex s' /\
     DrillSession.currentStepIndex s'
       <= DrillSession.currentStepIndex s + Z.of_nat (length logged)).
Proof.
  split.
  - intros session c.
    destruct (handleShotRecorded_delivered session s c)
      as [Hg|s' Hg Ht|Hg Hnone].
    + left. done.
    + right. left. split; [done|]. split; [inversion Ht; eauto|].
      exists s'. split; [done|]. by apply transition_frame.
    + right. right. done.
  - intros events. revert s.
    induction events as [|event events IH]; intros s s'.
    + intros [= <-]. simpl. rewrite app_nil_r. repeat split; lia.
    + rewrite deliverShots_cons.
      destruct (handleShotRecorded event.1 (Some s) event.2) as [o|e] eqn:Hh;
        [|done].
      destruct (delivered_Normal_inv _ _ _ _ Hh) as (s1 & -> & Hcase).
      cbn [JS.bind]. intros Hrun.
      destruct (IH s1 s' Hrun) as (Hlog & Hsteps & Hid & Hname & Hlo & Hhi).
      rewrite filter_cons.
      destruct Hcase as [[Hg ->]|[Hg Ht]].
      * rewrite decide_False by congruence. done.
      * rewrite decide_True by done.
        apply transition_frame in Ht as Hframe.
        destruct Hframe as (Hlog1 & Hsteps1 & Hid1 & Hname1).
        apply transition_index in Ht. cbn zeta in *.
        rewrite !fmap_cons. rewrite Hlog, Hlog1, <- app_assoc.
        repeat split; first [done | congruence | simpl length; lia].
Qed.

Lemma shot_log_extends_by_delivered_shots_witness :
  let s := startDrill 1 [DrillStep.mk CENTER None (Some 2)] in
  let events := [(Some s, Build_ShotCall MAKE CENTER 2 2);
                 (None, Build_ShotCall MISS LEFT 3 3);
                 (Some s, Build_ShotCall MISS LEFT 4 4)] in
  DrillSession.shots
    (DrillSession.with_shots s
       [Shot.mk "2" MAKE CENTER 2; Shot.mk "4" MISS LEFT 4])
  = DrillSession.shots s ++
    [newShotOf (Build_ShotCall MAKE CENTER 2 2);
     newShotOf (Build_ShotCall MISS LEFT 4 4)].
Proof.
  intros s events.
  apply (proj2 (shot_log_extends_by_delivered_shots s) events
           (DrillSession.with_shots s
              [Shot.mk "2" MAKE CENTER 2; Shot.mk "4" MISS LEFT 4])).
  reflexivity.
Defined.

(** ** Steps behind the pointer have met their thresholds *)

Lemma reached_mono t (count count' : nat) :
  (count <= count')%nat ->
  JS.reached t count = true -> JS.reached t count' = true.
Proof.
  intros Hle. rewrite !reached_spec.
  intros (n & -> & Hn & Hc). exists n. repeat split; [done|lia].
Qed.

Lemma stepComplete_mono step (a a' m m' : nat) :
  (a <= a')%nat -> (m <= m')%nat ->
  stepComplete step a m = true -> stepComplete step a' m' = true.
Proof.
  intros Ha Hm. rewrite !stepComplete_spec, !orb_true_iff.
  intros [H|H]; [left|right]; eauto using reached_mono.
Qed.

Lemma attemptsAt_snoc_le p log sh :
  (attemptsAt p log <= attemptsAt p (log ++ [sh]))%nat.
Proof. rewrite attemptsAt_snoc. lia. Qed.

Lemma makesAt_snoc_le p log sh :
  (makesAt p log <= makesAt p (log ++ [sh]))%nat.
Proof. rewrite makesAt_snoc. lia. Qed.

Lemma transition_stepsBehindComplete s sh s' :
  transition s sh s' -> stepsBehindComplete s -> stepsBehindComplete s'.
Proof.
  intros Ht Hs i step Hi Hstep.
  assert (Hold : 0 <= i < DrillSession.currentStepIndex s ->
                 JS.index (DrillSession.steps s) i = Some step ->
                 stepComplete step
                   (attemptsAt (DrillStep.position step)
                               (DrillSession.shots s ++ [sh]))
                   (makesAt (DrillStep.position step)
                            (DrillSession.shots s ++ [sh])) = true).
  { intros Hi' Hstep'.
    eapply stepComplete_mono;
      [apply attemptsAt_snoc_le|apply makesAt_snoc_le|by apply (Hs i step)]. }
  inversion Ht as [step0 Hstep0 Hpos|step0 Hstep0 Hpos Hdone
                  |step0 Hstep0 Hpos Hdone Hlt|step0 Hstep0 Hpos Hdone Hge];
    subst; simpl in *; try (by apply Hold).
  - destruct (decide (i = DrillSession.currentStepIndex s)) as [->|Hne].
    + rewrite Hstep0 in Hstep. by injection Hstep as <-.
    + apply Hold; [lia|done].
  - destruct (decide (i = DrillSession.currentStepIndex s)) as [->|Hne].
    + rewrite Hstep0 in Hstep. by injection Hstep as <-.
    + apply Hold; [lia|done].
Qed.

(** X2.  On a drill started from a non-empty program, a series of events
    either returns or fails at an event delivered, after the drill was
    completed, through a handler that passes its guard.  In every state a
    series returns, the program is the one started and every step before
    the step pointer has met its threshold in the log: a step with only an
    attempt threshold [T] has at least [T] logged shots at its position, a
    step with only a make threshold [T] has at least [T] logged makes
    there; when the drill is completed this holds for every step of the
    program. *)
Theorem steps_behind_pointer_met_thresholds
    (now : Z) (steps : list DrillStep.t)
    (events : list (option DrillSession.t * ShotCall)) :
  steps <> [] ->
  ((exists s', deliverShots (Some (startDrill now steps)) events
               = Normal (Some s')) \/
   (exists pre h c post s1,
      events = pre ++ (Some h, c) :: post /\
      DrillSession.isActive h = true /\
      deliverShots (Some (startDrill now steps)) pre = Normal (Some s1) /\
      DrillSession.completed s1 = true)) /\
  (forall s',
     deliverShots (Some (startDrill now steps)) events = Normal (Some s') ->
     DrillSession.steps s' = steps /\
     (forall i step T,
        0 <= i < DrillSession.currentStepIndex s' ->
        JS.index steps i = Some step ->
        (DrillStep.targetAttempts step = Some T ->
         DrillStep.targetMakes step = None ->
         T <= Z.of_nat (length (filter
                (fun sh => Shot.position sh = DrillStep.position step)
                (DrillSession.shots s')))) /\
        (DrillStep.targetMakes step = Some T ->
         DrillStep.targetAttempts step = None ->
         T <= Z.of_nat (length (filter
                (fun sh => Shot.position sh = DrillStep.position step /\
                           Shot.result sh = MAKE)
                (DrillSession.shots s'))))) /\
     (DrillSession.completed s' = true ->
      DrillSession.currentStepIndex s' = JS.len steps)).
Proof.
  intros Hne.
  pose proof (startDrill_invariant now steps Hne) as Hinv0.
  split.
  - destruct (deliverShots (Some (startDrill now steps)) events)
      as [o|[]] eqn:Hrun.
    + left. destruct (deliverShots_Some _ _ _ Hrun) as [s' ->]. eauto.
    + right. by apply (deliverShots_throws_iff events) in Hrun.
  - intros s' Hrun.
    assert (Hsteps : DrillSession.steps s' = steps).
    { by apply (deliverShots_preserves
                  (fun x => DrillSession.steps x = steps)
                  ltac:(by intros a sh b (_ & -> & _)%transition_frame)
                  events _ s' Hrun). }
    split; [done|]. split.
    + intros i step T Hi Hstep.
      assert (Hdone : stepComplete step
                (attemptsAt (DrillStep.position step) (DrillSession.shots s'))
                (makesAt (DrillStep.position step) (DrillSession.shots s'))
                = true).
      { eapply (deliverShots_preserves stepsBehindComplete
                  transition_stepsBehindComplete events _ s' Hrun);
          [|done|by rewrite Hsteps].
        intros j st Hj. simpl in Hj. lia. }
      rewrite stepComplete_spec, orb_true_iff, !reached_spec in Hdone.
      rewrite attemptsAt_filter, makesAt_filter in Hdone.
      split; intros H1 H2; rewrite H1, H2 in Hdone;
        destruct Hdone as [(n & Hn & _ & Hle)|(n & Hn & _ & Hle)];
        congruence.
    + intros Hdone.
      destruct (deliverShots_invariant events _ s' Hrun Hinv0)
        as (_ & Hend & _).
      rewrite <- Hsteps. by apply Hend.
Qed.

Lemma steps_behind_pointer_met_thresholds_witness :
  let steps := [DrillStep.mk CENTER None (Some 1)] in
  let s' := DrillSession.finished (startDrill 1 steps)
              [Shot.mk "2" MAKE CENTER 2] 1 in
  DrillSession.steps s' = steps /\
  DrillSession.currentStepIndex s' = JS.len steps.
Proof.
  intros steps s'.
  destruct (proj2 (steps_behind_pointer_met_thresholds 1 steps
                     [(Some (startDrill 1 steps),
                       Build_ShotCall MAKE CENTER 2 2)]
                     ltac:(discriminate)) s' eq_refl)
    as (Hsteps & _ & Hdone).
  split; [exact Hsteps|]. apply Hdone. reflexivity.
Defined.

(** ** Steps with unusable thresholds *)

Lemma stepComplete_no_threshold step attempts makes :
  JS.truthy (DrillStep.targetAttempts step) = false ->
  JS.truthy (DrillStep.targetMakes step) = false ->
  stepComplete step attempts makes = false.
Proof.
  intros HA HM. rewrite stepComplete_spec.
  by rewrite (reached_falsy _ _ HA), (reached_falsy _ _ HM).
Qed.

Lemma handle_no_threshold s c step :
  DrillSession.isActive s = true ->
  JS.index (DrillSession.steps s) (DrillSession.currentStepIndex s)
    = Some step ->
  JS.truthy (DrillStep.targetAttempts step) = false ->
  JS.truthy (DrillStep.targetMakes step) = false ->
  handleShotRecorded (Some s) (Some s) c =
  Normal (Some (DrillSession.with_shots s
                  (DrillSession.shots s ++ [newShotOf c]))).
Proof.
  intros Hact Hstep HA HM. accepted s c s' Ht. f_equal. f_equal.
  inversion Ht as [step' Hstep' Hpos|step' Hstep' Hpos Hdone
                  |step' Hstep' Hpos Hdone Hlt|step' Hstep' Hpos Hdone Hge];
    subst; try done; rewrite Hstep in Hstep'; injection Hstep' as <-;
    by rewrite stepComplete_no_threshold in Hdone.
Qed.

(** X3.  A step whose two thresholds are each undefined or 0 is never
    completed: on an active session standing at such a step, every series
    of calls returns the same session with only the log grown by all the
    shots; the pointer stays and the drill does not complete. *)
Theorem step_without_threshold_never_completes
    (s : DrillSession.t) (step : DrillStep.t) (cs : list ShotCall) :
  DrillSession.isActive s = true ->
  JS.index (DrillSession.steps s) (DrillSession.currentStepIndex s)
    = Some step ->
  JS.truthy (DrillStep.targetAttempts step) = false ->
  JS.truthy (DrillStep.targetMakes step) = false ->
  handleShots (Some s) cs =
  Normal (Some (DrillSession.with_shots s
                  (DrillSession.shots s ++ (newShotOf <$> cs)))).
Proof.
  revert s. induction cs as [|c cs IH]; intros s Hact Hstep HA HM.
  - simpl. rewrite app_nil_r. by destruct s.
  - rewrite handleShots_cons, (handle_no_threshold s c step) by done.
    cbn [JS.bind]. rewrite IH by done. simpl. by rewrite <- app_assoc.
Qed.

Lemma step_without_threshold_never_completes_witness :
  let s := startDrill 1 [DrillStep.mk CENTER (Some 0) None] in
  let cs := [Build_ShotCall MAKE CENTER 2 2; Build_ShotCall MAKE CENTER 3 3] in
  handleShots (Some s) cs =
  Normal (Some (DrillSession.with_shots s
                  (DrillSession.shots s ++ (newShotOf <$> cs)))).
Proof.
  intros s cs.
  apply (step_without_threshold_never_completes s
           (DrillStep.mk CENTER (Some 0) None) cs); reflexivity.
Defined.

(** X4.  A step with a negative threshold (attempt or make) is completed
    by the first shot at its position, whatever its outcome. *)
Theorem negative_threshold_completes_at_once
    (s : DrillSession.t) (c : ShotCall) (step : DrillStep.t) (T : Z) :
  DrillSession.isActive s = true ->
  JS.index (DrillSession.steps s) (DrillSession.currentStepIndex s)
    = Some step ->
  DrillStep.targetAttempts step = Some T \/
  DrillStep.targetMakes step = Some T ->
  T < 0 ->
  call_position c = DrillStep.position step ->
  exists s', handleShotRecorded (Some s) (Some s) c = Normal (Some s') /\
    DrillSession.currentStepIndex s' = DrillSession.currentStepIndex s + 1.
Proof.
  intros Hact Hstep HT Hneg Hpos.
  destruct (accepted_shot s c step Hact Hstep) as (s' & Hh & _ & _ & Hiff).
  exists s'. split; [done|]. apply Hiff. split; [done|].
  rewrite stepComplete_spec, orb_true_iff, !reached_spec.
  destruct HT as [HT|HT]; [left|right]; exists T; repeat split;
    first [done | lia].
Qed.

Lemma negative_threshold_completes_at_once_witness :
  let step := DrillStep.mk LEFT None (Some (-3)) in
  let s := startDrill 1 [step; step] in
  let c := Build_ShotCall MISS LEFT 2 2 in
  exists s', handleShotRecorded (Some s) (Some s) c = Normal (Some s') /\
    DrillSession.currentStepIndex s' = DrillSession.currentStepIndex s + 1.
Proof.
  intros step s c.
  apply (negative_threshold_completes_at_once s c step (-3));
    [reflexivity|reflexivity|left; reflexivity|lia|reflexivity].
Defined.

(** ** What the drill screen shows *)

(** X5.  The highlighted position and the instruction line agree: for any
    session, when [getActivePosition] is a position [p] the instruction is
    a "Move to <p>..." line, and [getActivePosition] is undefined exactly
    when the instruction is "Drill Complete!" or "Loading...". *)
Theorem active_position_agrees_with_instruction (s : DrillSession.t) :
  (forall p, getActivePosition (Some s) = Some p ->
     exists rest, getInstruction (Some s)
                  = "Move to " +:+ CourtPosition_value p +:+ rest) /\
  (getActivePosition (Some s) = None <->
   getInstruction (Some s) = "Drill Complete!" \/
   getInstruction (Some s) = "Loading...").
Proof.
  unfold getActivePosition, getInstruction.
  destruct (DrillSession.completed s).
  { split; [done|]. split; auto. }
  destruct (JS.index _ _) as [step|]; simpl.
  - split.
    + intros p [= <-]. eexists. reflexivity.
    + split; [done|]. intros [H|H]; discriminate H.
  - split; [done|]. split; auto.
Qed.

(** ** Shots from the keyboard and from the vision service *)

(** X6.  A key press on the drill screen records a shot only for ArrowUp
    (a MAKE) and ArrowDown (a MISS), only while the session is not
    completed, and always at the current step's position; recorded on an
    active session, such a shot is logged and raises the number of logged
    shots at the current step's position by one. *)
Theorem key_press_shot_is_on_target
    (s : DrillSession.t) (key : string) (r : ShotResult) (p : CourtPosition) :
  keyPressCall s key = Some (r, p) ->
  DrillSession.completed s = false /\
  (key = "ArrowUp" /\ r = MAKE \/ key = "ArrowDown" /\ r = MISS) /\
  exists step,
    JS.index (DrillSession.steps s) (DrillSession.currentStepIndex s)
      = Some step /\
    p = DrillStep.position step /\
    (DrillSession.isActive s = true ->
     forall nowId nowTs,
     exists s',
       handleShotRecorded (Some s) (Some s) (Build_ShotCall r p nowId nowTs)
         = Normal (Some s') /\
       attemptsAt p (DrillSession.shots s')
         = S (attemptsAt p (DrillSession.shots s))).
Proof.
  unfold keyPressCall, CameraView.handleKeyDown, getActivePosition.
  destruct (DrillSession.completed s); [done|].
  destruct (JS.index _ _) as [step|] eqn:Hstep; [|done]. simpl.
  intros Hkey. split; [done|].
  assert (Hp : p = DrillStep.position step /\
               (key = "ArrowUp" /\ r = MAKE \/ key = "ArrowDown" /\ r = MISS)).
  { repeat case_decide; simplify_eq; auto. }
  destruct Hp as [-> Hr]. split; [done|].
  exists step. split; [done|]. split; [done|].
  intros Hact nowId nowTs.
  destruct (accepted_shot s (Build_ShotCall r (DrillStep.position step)
                                            nowId nowTs) step Hact Hstep)
    as (s' & Hh & Hlog & _).
  exists s'. split; [exact Hh|].
  rewrite Hlog, attemptsAt_snoc. simpl. rewrite decide_True by done. lia.
Qed.

Lemma key_press_shot_is_on_target_witness :
  let s := startDrill 1 [DrillStep.mk RIGHT (Some 2) None] in
  DrillSession.completed s = false /\
  ("ArrowUp" = "ArrowUp" /\ MAKE = MAKE \/
   "ArrowUp" = "ArrowDown" /\ MAKE = MISS).
Proof.
  intros s.
  destruct (key_press_shot_is_on_target s "ArrowUp" MAKE RIGHT eq_refl)
    as (Hc & Hk & _).
  split; [exact Hc|exact Hk].
Defined.

(** Other keys, and any key once the drill is completed, record nothing. *)
Lemma key_press_ignored s key :
  DrillSession.completed s = true \/
  (key <> "ArrowUp" /\ key <> "ArrowDown") ->
  keyPressCall s key = None.
Proof.
  unfold keyPressCall, CameraView.handleKeyDown, getActivePosition.
  intros [->|[Hup Hdown]]; [done|].
  destruct (DrillSession.completed s); [done|].
  destruct (JS.index _ _); simpl; [|done].
  by repeat case_decide.
Qed.

(** X7.  [onShotDetected] decodes the string value of every enum member
    to that member, and never rejects a string: any result other than
    "MAKE" is recorded as a MISS and any position other than "LEFT" and
    "RIGHT" as CENTER. *)
Theorem onShotDetected_decoding :
  (forall r p,
     CameraView.onShotDetected (ShotResult_value r) (CourtPosition_value p)
     = (r, p)) /\
  (forall res pos, res <> "MAKE" ->
     (CameraView.onShotDetected res pos).1 = MISS) /\
  (forall res pos, pos <> "LEFT" -> pos <> "RIGHT" ->
     (CameraView.onShotDetected res pos).2 = CENTER).
Proof.
  unfold CameraView.onShotDetected. split; [|split].
  - by intros [] [].
  - intros res pos Hres. simpl. by case_decide.
  - intros res pos Hl Hr. simpl. by repeat case_decide.
Qed.

Lemma onShotDetected_decoding_witness :
  (CameraView.onShotDetected "make" "CENTRE").1 = MISS.
Proof.
  apply (proj1 (proj2 onShotDetected_decoding) "make" "CENTRE").
  discriminate.
Defined.

(** ** Selecting and ordering positions in the custom builder *)

Lemma togglePosition_selection pos st :
  DrillSelector.selectedPositions (DrillSelector.togglePosition pos st) =
  if decide (pos ∈ DrillSelector.selectedPositions st)
  then filter (fun p => p <> pos) (DrillSelector.selectedPositions st)
  else DrillSelector.selectedPositions st ++ [pos].
Proof. done. Qed.

Lemma filter_other_id (pos : CourtPosition) (sel : list CourtPosition) :
  pos ∉ sel -> filter (fun p => p <> pos) sel = sel.
Proof.
  induction sel as [|q sel IH]; [done|].
  intros [Hq Hsel]%not_elem_of_cons.
  rewrite filter_cons, decide_True by done. f_equal. by apply IH.
Qed.

(** X8.  [togglePosition(pos)] flips the membership of [pos] in the
    selection and of no other position, keeps a duplicate-free selection
    duplicate-free and leaves the other settings alone; toggling a
    position that was not selected twice restores the state. *)
Theorem togglePosition_flips_membership
    (pos : CourtPosition) (st : DrillSelector.State) :
  let st' := DrillSelector.togglePosition pos st in
  (pos ∈ DrillSelector.selectedPositions st' <->
   pos ∉ DrillSelector.selectedPositions st) /\
  (forall q, q <> pos ->
     q ∈ DrillSelector.selectedPositions st' <->
     q ∈ DrillSelector.selectedPositions st) /\
  (NoDup (DrillSelector.selectedPositions st) ->
   NoDup (DrillSelector.selectedPositions st')) /\
  (DrillSelector.shotsPerPosition st' = DrillSelector.shotsPerPosition st /\
   DrillSelector.isMakeBased st' = DrillSelector.isMakeBased st /\
   DrillSelector.targetMakes st' = DrillSelector.targetMakes st /\
   DrillSelector.showCustom st' = DrillSelector.showCustom st) /\
  (pos ∉ DrillSelector.selectedPositions st ->
   DrillSelector.togglePosition pos st' = st).
Proof.
  intros st'. unfold st'. rewrite togglePosition_selection.
  split; [|split; [|split; [|split]]].
  - case_decide as Hin.
    + rewrite list_elem_of_filter. tauto.
    + rewrite elem_of_app, list_elem_of_singleton. tauto.
  - intros q Hq. case_decide as Hin.
    + rewrite list_elem_of_filter. tauto.
    + rewrite elem_of_app, list_elem_of_singleton. tauto.
  - intros Hnd. case_decide as Hin.
    + by apply NoDup_filter.
    + apply NoDup_app. split; [done|]. split; [|apply NoDup_singleton].
      intros q Hq ->%list_elem_of_singleton. done.
  - done.
  - intros Hout. destruct st as [show sel shots mk tm]. simpl in *.
    unfold DrillSelector.togglePosition. simpl.
    rewrite (decide_False (P := pos ∈ sel)) by done.
    rewrite (decide_True (P := pos ∈ sel ++ [pos]))
      by (apply elem_of_app; right; by apply list_elem_of_singleton).
    f_equal. rewrite filter_app, filter_cons, filter_nil.
    rewrite (decide_False (P := pos <> pos)) by tauto.
    rewrite app_nil_r. by apply filter_other_id.
Qed.

Lemma togglePosition_flips_membership_witness :
  DrillSelector.togglePosition LEFT
    (DrillSelector.togglePosition LEFT DrillSelector.initial)
  = DrillSelector.initial.
Proof.
  apply (proj2 (proj2 (proj2 (proj2
           (togglePosition_flips_membership LEFT DrillSelector.initial))))).
  apply not_elem_of_nil.
Defined.

Lemma toggles_NoDup (poss : list CourtPosition) : forall st,
  NoDup (DrillSelector.selectedPositions st) ->
  NoDup (DrillSelector.selectedPositions
           (foldl (fun st pos => DrillSelector.togglePosition pos st) st poss)).
Proof.
  induction poss as [|pos poss IH]; intros st Hst; [done|].
  simpl. apply IH.
  rewrite togglePosition_selection. case_decide as Hin.
  - by apply NoDup_filter.
  - apply NoDup_app. split; [done|]. split; [|apply NoDup_singleton].
    intros q Hq ->%list_elem_of_singleton. done.
Qed.

Lemma positions_NoDup_length (sel : list CourtPosition) :
  NoDup sel -> (length sel <= 3)%nat.
Proof.
  intros Hnd.
  assert (Hsub : sel ⊆+ [LEFT; CENTER; RIGHT]).
  { apply NoDup_submseteq; [done|]. intros [] _; by repeat constructor. }
  by apply submseteq_length in Hsub.
Qed.

(** X9.  Whatever positions are toggled, starting from an empty
    selection, the selection never repeats a position and holds at most
    three; so the program that "Start Program" then hands to [startDrill]
    has one step per selected position, with pairwise distinct positions. *)
Theorem custom_program_positions_distinct
    (poss : list CourtPosition) (st0 : DrillSelector.State) :
  DrillSelector.selectedPositions st0 = [] ->
  let st := foldl (fun st pos => DrillSelector.togglePosition pos st)
                  st0 poss in
  NoDup (DrillSelector.selectedPositions st) /\
  (length (DrillSelector.selectedPositions st) <= 3)%nat /\
  (forall steps effect_state,
     DrillSelector.handleCreateCustom st
       = (DrillSelector.OnStartDrill steps, effect_state) ->
     NoDup (DrillStep.position <$> steps) /\
     (1 <= length steps <= 3)%nat).
Proof.
  intros Hempty st.
  assert (Hnd : NoDup (DrillSelector.selectedPositions st)).
  { apply toggles_NoDup. rewrite Hempty. apply NoDup_nil_2. }
  split; [done|]. split; [by apply positions_NoDup_length|].
  intros steps st'. unfold DrillSelector.handleCreateCustom.
  case_decide as Hlen; [done|]. intros [= <- _].
  rewrite customSteps_positions. split; [done|].
  rewrite length_map. apply positions_NoDup_length in Hnd. lia.
Qed.

Lemma custom_program_positions_distinct_witness :
  let st := foldl (fun st pos => DrillSelector.togglePosition pos st)
                  DrillSelector.initial [LEFT; RIGHT; LEFT; CENTER] in
  NoDup (DrillSelector.selectedPositions st).
Proof.
  intros st.
  apply (proj1 (custom_program_positions_distinct
                  [LEFT; RIGHT; LEFT; CENTER] DrillSelector.initial eq_refl)).
Defined.

(** *** Moving and removing *)

Section ArrayEntries.

Context {A : Type}.
Implicit Types (arr : list (option A)) (l : list A).

Lemma get_cons_S a arr i : JSArray.get (a :: arr) (S i) = JSArray.get arr i.
Proof. done. Qed.

Lemma set_cons_S a arr i v :
  JSArray.set (a :: arr) (S i) v = a :: JSArray.set arr i v.
Proof.
  unfold JSArray.set. simpl.
  destruct (decide (i < length arr)%nat);
    [rewrite decide_True by lia|rewrite decide_False by lia]; done.
Qed.

Lemma swapEntries_cons_S a arr i j :
  JSArray.swapEntries (S i) (S j) (a :: arr)
  = a :: JSArray.swapEntries i j arr.
Proof.
  unfold JSArray.swapEntries. by rewrite !get_cons_S, !set_cons_S.
Qed.

(** Swapping two neighbours that exist, in either order of the indices. *)
Lemma swapEntries_neighbours l1 x y l2 :
  JSArray.swapEntries (S (length l1)) (length l1)
                      (Some <$> (l1 ++ x :: y :: l2))
  = Some <$> (l1 ++ y :: x :: l2) /\
  JSArray.swapEntries (length l1) (S (length l1))
                      (Some <$> (l1 ++ x :: y :: l2))
  = Some <$> (l1 ++ y :: x :: l2).
Proof.
  induction l1 as [|a l1 [IH1 IH2]].
  - split; unfold JSArray.swapEntries, JSArray.get, JSArray.set; simpl;
      repeat (rewrite decide_True by lia); done.
  - rewrite <- !app_comm_cons. cbn [length].
    rewrite !fmap_cons, !swapEntries_cons_S, IH1, IH2. done.
Qed.

Lemma neighbours_exist l (i : nat) :
  (i + 1 < length l)%nat ->
  exists l1 x y l2, l = l1 ++ x :: y :: l2 /\ length l1 = i.
Proof.
  revert l. induction i as [|i IH]; intros l Hi.
  - destruct l as [|x [|y l2]]; simpl in Hi; try lia.
    by exists [], x, y, l2.
  - destruct l as [|a l]; simpl in Hi; [lia|].
    destruct (IH l ltac:(lia)) as (l1 & x & y & l2 & -> & <-).
    by exists (a :: l1), x, y, l2.
Qed.

Lemma filterIndexNot_below (start k : nat) l :
  (k < start)%nat ->
  snd <$> filter (fun ix : nat * A => ix.1 <> k)
                 (zip (seq start (length l)) l) = l.
Proof.
  revert start. induction l as [|a l IH]; intros start Hk; [done|].
  simpl. rewrite filter_cons. simpl. rewrite decide_True by lia.
  simpl. f_equal. apply IH. lia.
Qed.

Lemma filterIndexNot_from (start index : nat) l :
  snd <$> filter (fun ix : nat * A => ix.1 <> (start + index)%nat)
                 (zip (seq start (length l)) l)
  = take index l ++ drop (S index) l.
Proof.
  revert start index. induction l as [|a l IH]; intros start index.
  - by destruct index.
  - simpl. rewrite filter_cons. simpl. destruct index as [|index].
    + rewrite decide_False by lia. simpl. rewrite drop_0.
      rewrite Nat.add_0_r. apply filterIndexNot_below. lia.
    + rewrite decide_True by lia. simpl. f_equal.
      replace (start + S index)%nat with (S start + index)%nat by lia.
      apply IH.
Qed.

End ArrayEntries.

(** X10.  [movePositionUp(index)] for [0 < index < length] exchanges the
    entry at [index] with the one before it and touches nothing else: the
    result is a reordering of the selection without undefined entries, and
    [movePositionDown(index - 1)] applied to it gives the selection back. *)
Theorem movePositionUp_swaps_with_previous
    (index : nat) (sel : list CourtPosition) :
  (0 < index < length sel)%nat ->
  exists l1 x y l2,
    sel = l1 ++ x :: y :: l2 /\ S (length l1) = index /\
    DrillSelectorOrder.movePositionUp index sel
      = Some <$> (l1 ++ y :: x :: l2) /\
    DrillSelectorOrder.movePositionDown (index - 1) (l1 ++ y :: x :: l2)
      = Some <$> sel /\
    l1 ++ y :: x :: l2 ≡ₚ sel.
Proof.
  intros Hi.
  destruct (neighbours_exist sel (index - 1) ltac:(lia))
    as (l1 & x & y & l2 & -> & Hl1).
  exists l1, x, y, l2. split; [done|]. split; [lia|].
  assert (index = S (length l1)) as -> by lia. clear Hi Hl1.
  unfold DrillSelectorOrder.movePositionUp, DrillSelectorOrder.movePositionDown.
  rewrite decide_True by lia.
  replace (S (length l1) - 1)%nat with (length l1) by lia.
  split; [apply swapEntries_neighbours|]. split.
  - rewrite decide_True
      by (unfold JS.len; rewrite length_app; simpl; lia).
    replace (length l1 + 1)%nat with (S (length l1)) by lia.
    apply swapEntries_neighbours.
  - apply Permutation_app_head, perm_swap.
Qed.

Lemma movePositionUp_swaps_with_previous_witness :
  exists l1 x y l2,
    [LEFT; CENTER; RIGHT] = l1 ++ x :: y :: l2 /\ S (length l1) = 2%nat /\
    DrillSelectorOrder.movePositionUp 2 [LEFT; CENTER; RIGHT]
      = Some <$> (l1 ++ y :: x :: l2) /\
    DrillSelectorOrder.movePositionDown (2 - 1) (l1 ++ y :: x :: l2)
      = Some <$> [LEFT; CENTER; RIGHT] /\
    l1 ++ y :: x :: l2 ≡ₚ [LEFT; CENTER; RIGHT].
Proof.
  apply (movePositionUp_swaps_with_previous 2 [LEFT; CENTER; RIGHT]).
  simpl. lia.
Defined.

(** X11.  [movePositionDown(index)] never produces an undefined entry:
    for every index the result is a reordering of the selection, the
    selection itself when [index] is the last index or beyond, and otherwise
    the selection with the entries at [index] and [index + 1] exchanged. *)
Theorem movePositionDown_reorders
    (index : nat) (sel : list CourtPosition) :
  exists sel',
    DrillSelectorOrder.movePositionDown index sel = Some <$> sel' /\
    sel' ≡ₚ sel /\
    ((length sel <= index + 1)%nat -> sel' = sel) /\
    ((index + 1 < length sel)%nat ->
     exists l1 x y l2, sel = l1 ++ x :: y :: l2 /\ length l1 = index /\
                       sel' = l1 ++ y :: x :: l2).
Proof.
  unfold DrillSelectorOrder.movePositionDown, JS.len.
  case_decide as Hi.
  - destruct (neighbours_exist sel index ltac:(lia))
      as (l1 & x & y & l2 & -> & <-).
    exists (l1 ++ y :: x :: l2).
    replace (length l1 + 1)%nat with (S (length l1)) by lia.
    split; [apply swapEntries_neighbours|].
    split; [apply Permutation_app_head, perm_swap|].
    split; [lia|]. intros _. by exists l1, x, y, l2.
  - exists sel. repeat split; [done|lia].
Qed.

Lemma movePositionDown_reorders_witness :
  exists sel',
    DrillSelectorOrder.movePositionDown 1 [LEFT; CENTER] = Some <$> sel' /\
    sel' = [LEFT; CENTER].
Proof.
  destruct (movePositionDown_reorders 1 [LEFT; CENTER])
    as (sel' & Hmove & _ & Hlast & _).
  exists sel'. split; [exact Hmove|]. apply Hlast. simpl. lia.
Defined.

(** X12.  [movePositionUp] has no upper bound on [index]: called with
    [index = length] on a non-empty selection it grows the array by one,
    puts the last position at the new end and leaves [undefined] in its
    old place. *)
Theorem movePositionUp_at_length_leaves_undefined
    (l1 : list CourtPosition) (x : CourtPosition) :
  DrillSelectorOrder.movePositionUp (length (l1 ++ [x])) (l1 ++ [x])
  = (Some <$> l1) ++ [None; Some x].
Proof.
  unfold DrillSelectorOrder.movePositionUp.
  rewrite decide_True by (rewrite length_app; simpl; lia).
  rewrite length_app. simpl.
  replace (length l1 + 1)%nat with (S (length l1)) by lia.
  replace (S (length l1) - 1)%nat with (length l1) by lia.
  induction l1 as [|a l1 IH].
  - done.
  - cbn [length]. rewrite <- !app_comm_cons, !fmap_cons.
    rewrite swapEntries_cons_S, IH. done.
Qed.

(** X13.  [removePosition(index)] drops exactly the entry at [index] and
    keeps the others in order; an index at or past the end removes
    nothing. *)
Theorem removePosition_drops_one_entry
    (index : nat) (sel : list CourtPosition) :
  DrillSelectorOrder.removePosition index sel
    = take index sel ++ drop (S index) sel /\
  ((length sel <= index)%nat ->
   DrillSelectorOrder.removePosition index sel = sel) /\
  ((index < length sel)%nat ->
   S (length (DrillSelectorOrder.removePosition index sel)) = length sel).
Proof.
  assert (Heq : DrillSelectorOrder.removePosition index sel
                = take index sel ++ drop (S index) sel).
  { apply (filterIndexNot_from 0 index sel). }
  split; [done|]. rewrite Heq. split.
  - intros Hge. by rewrite take_ge, drop_ge, app_nil_r by lia.
  - intros Hlt. rewrite length_app, length_take, length_drop. lia.
Qed.

Lemma removePosition_drops_one_entry_witness :
  S (length (DrillSelectorOrder.removePosition 1 [LEFT; CENTER; RIGHT]))
  = length [LEFT; CENTER; RIGHT].
Proof.
  apply (proj2 (proj2 (removePosition_drops_one_entry 1
                         [LEFT; CENTER; RIGHT]))).
  simpl. lia.
Defined.

(** ** Statistics *)

Lemma attemptsAt_cons p sh log :
  attemptsAt p (sh :: log) =
  ((if decide (Shot.position sh = p) then 1 else 0) + attemptsAt p log)%nat.
Proof.
  unfold attemptsAt, relevantShots. rewrite filter_cons. by case_decide.
Qed.

Lemma makesAt_cons p sh log :
  makesAt p (sh :: log) =
  ((if decide (Shot.position sh = p /\ Shot.result sh = MAKE) then 1 else 0)
   + makesAt p log)%nat.
Proof.
  unfold makesAt, madeShots, relevantShots. rewrite filter_cons.
  destruct (decide (Shot.position sh = p)) as [Hp|Hp].
  - rewrite filter_cons.
    destruct (decide (Shot.result sh = MAKE)); case_decide; tauto.
  - case_decide; tauto.
Qed.

(** Every shot is at exactly one of the three positions. *)
Lemma attempts_partition log :
  (attemptsAt LEFT log + attemptsAt CENTER log + attemptsAt RIGHT log)%nat
  = length log.
Proof.
  induction log as [|sh log IH]; [done|].
  rewrite !attemptsAt_cons. simpl. rewrite <- IH.
  destruct (Shot.position sh); repeat case_decide; try done; lia.
Qed.

Lemma makes_partition log :
  (makesAt LEFT log + makesAt CENTER log + makesAt RIGHT log)%nat
  = length (madeShots log).
Proof.
  induction log as [|sh log IH]; [done|].
  rewrite !makesAt_cons. unfold madeShots in *. rewrite filter_cons.
  destruct (decide (Shot.result sh = MAKE)) as [Hr|Hr]; simpl; rewrite <- IH;
    destruct (Shot.position sh); repeat case_decide;
    first [lia | exfalso; intuition congruence].
Qed.

Lemma countShot_fold log : forall stats pos,
  let stats' := foldl storageService.countShot stats log in
  PositionStats.attempts (stats' pos)
    = PositionStats.attempts (stats pos) + Z.of_nat (attemptsAt pos log) /\
  PositionStats.makes (stats' pos)
    = PositionStats.makes (stats pos) + Z.of_nat (makesAt pos log) /\
  PositionStats.percentage (stats' pos) = PositionStats.percentage (stats pos).
Proof.
  induction log as [|sh log IH]; intros stats pos; simpl.
  - change (attemptsAt pos []) with 0%nat. change (makesAt pos []) with 0%nat.
    repeat split; lia.
  - destruct (IH (storageService.countShot stats sh) pos) as (-> & -> & ->).
    rewrite attemptsAt_cons, makesAt_cons.
    unfold storageService.countShot.
    destruct (decide (pos = Shot.position sh)) as [->|Hne]; simpl.
    + rewrite (decide_True (P := Shot.position sh = Shot.position sh)) by done.
      destruct (decide (Shot.result sh = MAKE)) as [Hr|Hr].
      * rewrite (decide_True (P := _ /\ _)) by done. repeat split; lia.
      * rewrite (decide_False (P := _ /\ _)) by (by intros [_ ?]).
        repeat split; lia.
    + rewrite (decide_False (P := Shot.position sh = pos)) by done.
      rewrite (decide_False (P := _ /\ _)) by (by intros [? _]).
      repeat split; lia.
Qed.

Lemma countSessions_fold sessions : forall stats pos,
  let stats' :=
    foldl (fun stats session =>
             foldl storageService.countShot stats (SessionStats.shots session))
          stats sessions in
  PositionStats.attempts (stats' pos)
    = PositionStats.attempts (stats pos)
      + Z.of_nat (sum_list ((fun s => attemptsAt pos (SessionStats.shots s))
                              <$> sessions)) /\
  PositionStats.makes (stats' pos)
    = PositionStats.makes (stats pos)
      + Z.of_nat (sum_list ((fun s => makesAt pos (SessionStats.shots s))
                              <$> sessions)).
Proof.
  induction sessions as [|s sessions IH]; intros stats pos.
  - rewrite !fmap_nil. simpl. split; lia.
  - rewrite !fmap_cons. cbn [foldl sum_list sum_list_with].
    destruct (IH (foldl storageService.countShot stats (SessionStats.shots s))
                 pos) as (-> & ->).
    destruct (countShot_fold (SessionStats.shots s) stats pos) as (-> & -> & _).
    unfold id. split; lia.
Qed.

Lemma sum_list_le {A} (f g : A -> nat) (l : list A) :
  (forall a, (f a <= g a)%nat) ->
  (sum_list (f <$> l) <= sum_list (g <$> l))%nat.
Proof.
  intros Hfg. induction l as [|a l IH]; [done|].
  rewrite !fmap_cons. specialize (Hfg a). simpl. lia.
Qed.

Lemma positionStats_counts
    (store : storageService.Storage) (pos : CourtPosition) :
  let sessions := storageService.getAllSessions store in
  let stats := OverallStats.positionStats
                 (storageService.getOverallStats store) pos in
  PositionStats.attempts stats
    = Z.of_nat (sum_list ((fun s => attemptsAt pos (SessionStats.shots s))
                            <$> sessions)) /\
  PositionStats.makes stats
    = Z.of_nat (sum_list ((fun s => makesAt pos (SessionStats.shots s))
                            <$> sessions)).
Proof.
  intros sessions stats. unfold stats, storageService.getOverallStats.
  fold sessions. destruct sessions as [|first rest] eqn:Hs.
  - simpl. split; lia.
  - cbn [OverallStats.positionStats storageService.withPercentage
         PositionStats.attempts PositionStats.makes].
    unfold storageService.countSessions.
    destruct (countSessions_fold (first :: rest)
                storageService.zeroPositionStats pos) as (-> & ->).
    cbn [storageService.zeroPositionStats PositionStats.attempts
         PositionStats.makes].
    by rewrite !Z.add_0_l.
Qed.

(** X14.  The per-position counters of [getOverallStats] are the counts
    over all stored logs: for each position, [attempts] is the number of
    stored shots taken there and [makes] the number of those that were
    made, so [0 <= makes <= attempts], and a position without attempts has
    percentage 0. *)
Theorem overall_position_counts
    (store : storageService.Storage) (pos : CourtPosition) :
  let sessions := storageService.getAllSessions store in
  let stats := OverallStats.positionStats
                 (storageService.getOverallStats store) pos in
  PositionStats.attempts stats
    = Z.of_nat (sum_list ((fun s => attemptsAt pos (SessionStats.shots s))
                            <$> sessions)) /\
  PositionStats.makes stats
    = Z.of_nat (sum_list ((fun s => makesAt pos (SessionStats.shots s))
                            <$> sessions)) /\
  0 <= PositionStats.makes stats <= PositionStats.attempts stats /\
  (PositionStats.attempts stats = 0 -> PositionStats.percentage stats = 0).
Proof.
  intros sessions stats.
  destruct (positionStats_counts store pos) as (Ha & Hm).
  fold sessions in Ha, Hm. fold stats in Ha, Hm.
  split; [done|]. split; [done|]. split.
  - rewrite Ha, Hm. split; [lia|]. apply inj_le, sum_list_le.
    intros s. apply makesAt_le_attemptsAt.
  - unfold stats, storageService.getOverallStats.
    destruct (storageService.getAllSessions store) as [|first rest]; [done|].
    cbn [OverallStats.positionStats storageService.withPercentage
         PositionStats.attempts PositionStats.percentage].
    by intros ->.
Qed.

Lemma overall_position_counts_witness :
  let store : storageService.Storage :=
    Some [SessionStats.mk "1" 1 0 0 0 []] in
  PositionStats.percentage
    (OverallStats.positionStats (storageService.getOverallStats store) LEFT)
  = 0.
Proof.
  intros store.
  apply (proj2 (proj2 (proj2 (overall_position_counts store LEFT)))).
  reflexivity.
Defined.

Lemma madeShots_le log : JS.len (madeShots log) <= JS.len log.
Proof. unfold JS.len, madeShots. apply inj_le, length_filter. Qed.

(** X15.  [saveSession(shots)] appends one record to the stored sessions
    and keeps the earlier ones in order; the record holds the log itself,
    its length as [totalShots] and its number of makes as [makes], with
    [0 <= makes <= totalShots], and percentage 0 for an empty log; saved
    right after [clearAllStats], it is the only stored session. *)
Theorem saveSession_appends_record
    (nowId nowDate : Z) (shots : list Shot.t)
    (store : storageService.Storage) :
  let saved := storageService.saveSession nowId nowDate shots store in
  storageService.getAllSessions saved.2
    = storageService.getAllSessions store ++ [saved.1] /\
  SessionStats.shots saved.1 = shots /\
  SessionStats.totalShots saved.1 = JS.len shots /\
  SessionStats.makes saved.1 = JS.len (madeShots shots) /\
  0 <= SessionStats.makes saved.1 <= SessionStats.totalShots saved.1 /\
  (shots = [] -> SessionStats.percentage saved.1 = 0) /\
  storageService.getAllSessions
    (storageService.saveSession nowId nowDate shots
       (storageService.clearAllStats store)).2 = [saved.1].
Proof.
  simpl. repeat split.
  - unfold JS.len. lia.
  - apply madeShots_le.
  - by intros ->.
Qed.

Lemma saveSession_appends_record_witness :
  SessionStats.percentage
    (storageService.saveSession 1 2 [] None).1 = 0.
Proof.
  apply (proj1 (proj2 (proj2 (proj2 (proj2 (proj2
           (saveSession_appends_record 1 2 [] None))))))).
  reflexivity.
Defined.

(** The record [saveSession] builds does not depend on the store. *)
Lemma saveAll_sessions logs : forall store,
  storageService.getAllSessions (storageService.saveAll logs store)
  = storageService.getAllSessions store
    ++ ((fun log => (storageService.saveSession log.1.1 log.1.2 log.2 None).1)
          <$> logs).
Proof.
  unfold storageService.saveAll.
  induction logs as [|log logs IH]; intros store.
  - simpl. by rewrite app_nil_r.
  - rewrite fmap_cons. cbn [foldl]. rewrite IH. simpl.
    by rewrite <- app_assoc.
Qed.

Lemma foldl_totalShots sessions : forall acc,
  Forall (fun s => SessionStats.totalShots s
                   = JS.len (SessionStats.shots s)) sessions ->
  foldl (fun sum s => sum + SessionStats.totalShots s) acc sessions
  = acc + Z.of_nat (sum_list ((fun s => length (SessionStats.shots s))
                                <$> sessions)).
Proof.
  induction sessions as [|s sessions IH]; intros acc Hall.
  - simpl. lia.
  - apply Forall_cons in Hall as [Hs Hall]. rewrite fmap_cons.
    cbn [foldl]. rewrite IH, Hs by done. unfold JS.len. simpl. lia.
Qed.

Lemma foldl_makes sessions : forall acc,
  Forall (fun s => SessionStats.makes s
                   = JS.len (madeShots (SessionStats.shots s))) sessions ->
  foldl (fun sum s => sum + SessionStats.makes s) acc sessions
  = acc + Z.of_nat (sum_list ((fun s => length (madeShots (SessionStats.shots s)))
                                <$> sessions)).
Proof.
  induction sessions as [|s sessions IH]; intros acc Hall.
  - simpl. lia.
  - apply Forall_cons in Hall as [Hs Hall]. rewrite fmap_cons.
    cbn [foldl]. rewrite IH, Hs by done. unfold JS.len. simpl. lia.
Qed.

Lemma sum_attempts_partition (sessions : list SessionStats.t) :
  (sum_list ((fun s => attemptsAt LEFT (SessionStats.shots s)) <$> sessions)
   + sum_list ((fun s => attemptsAt CENTER (SessionStats.shots s)) <$> sessions)
   + sum_list ((fun s => attemptsAt RIGHT (SessionStats.shots s)) <$> sessions)
  )%nat
  = sum_list ((fun s => length (SessionStats.shots s)) <$> sessions).
Proof.
  induction sessions as [|s sessions IH]; [done|].
  rewrite !fmap_cons. simpl. rewrite <- IH.
  rewrite <- (attempts_partition (SessionStats.shots s)). lia.
Qed.

Lemma sum_makes_partition (sessions : list SessionStats.t) :
  (sum_list ((fun s => makesAt LEFT (SessionStats.shots s)) <$> sessions)
   + sum_list ((fun s => makesAt CENTER (SessionStats.shots s)) <$> sessions)
   + sum_list ((fun s => makesAt RIGHT (SessionStats.shots s)) <$> sessions)
  )%nat
  = sum_list ((fun s => length (madeShots (SessionStats.shots s)))
                <$> sessions).
Proof.
  induction sessions as [|s sessions IH]; [done|].
  rewrite !fmap_cons. simpl. rewrite <- IH.
  rewrite <- (makes_partition (SessionStats.shots s)). lia.
Qed.

Lemma overall_totals store :
  let sessions := storageService.getAllSessions store in
  let o := storageService.getOverallStats store in
  OverallStats.totalSessions o = JS.len sessions /\
  OverallStats.totalShots o
    = foldl (fun sum s => sum + SessionStats.totalShots s) 0 sessions /\
  OverallStats.totalMakes o
    = foldl (fun sum s => sum + SessionStats.makes s) 0 sessions.
Proof.
  intros sessions o. unfold o, storageService.getOverallStats.
  fold sessions. by destruct sessions.
Qed.

(** X16.  For a store filled only by [saveSession] since it was cleared,
    the totals of [getOverallStats] agree with each other: [totalSessions]
    is the number of saved logs, [totalShots] is the number of saved shots
    and equals the sum of the three per-position [attempts], [totalMakes]
    equals the sum of the three per-position [makes], and
    [0 <= totalMakes <= totalShots]. *)
Theorem overall_totals_of_saved_logs
    (logs : list (Z * Z * list Shot.t)) (store0 : storageService.Storage) :
  let store := storageService.saveAll logs
                 (storageService.clearAllStats store0) in
  let o := storageService.getOverallStats store in
  let at_ := fun pos => OverallStats.positionStats o pos in
  OverallStats.totalSessions o = JS.len logs /\
  OverallStats.totalShots o
    = Z.of_nat (sum_list ((fun log => length log.2) <$> logs)) /\
  OverallStats.totalShots o
    = PositionStats.attempts (at_ LEFT) + PositionStats.attempts (at_ CENTER)
      + PositionStats.attempts (at_ RIGHT) /\
  OverallStats.totalMakes o
    = PositionStats.makes (at_ LEFT) + PositionStats.makes (at_ CENTER)
      + PositionStats.makes (at_ RIGHT) /\
  0 <= OverallStats.totalMakes o <= OverallStats.totalShots o.
Proof.
  intros store o at_.
  set (statsOf := fun log : Z * Z * list Shot.t =>
         (storageService.saveSession log.1.1 log.1.2 log.2 None).1).
  assert (Hsessions : storageService.getAllSessions store = statsOf <$> logs).
  { unfold store. by rewrite saveAll_sessions. }
  assert (Hshots : Forall (fun s => SessionStats.totalShots s
                     = JS.len (SessionStats.shots s)) (statsOf <$> logs)).
  { apply Forall_fmap, Forall_true. by intros log. }
  assert (Hmakes : Forall (fun s => SessionStats.makes s
                     = JS.len (madeShots (SessionStats.shots s)))
                     (statsOf <$> logs)).
  { apply Forall_fmap, Forall_true. by intros log. }
  destruct (overall_totals store) as (Hn & Hts & Htm).
  fold o in Hn, Hts, Htm. rewrite Hsessions in Hn, Hts, Htm.
  rewrite foldl_totalShots in Hts by done.
  rewrite foldl_makes in Htm by done.
  destruct (positionStats_counts store LEFT) as (HaL & HmL).
  destruct (positionStats_counts store CENTER) as (HaC & HmC).
  destruct (positionStats_counts store RIGHT) as (HaR & HmR).
  fold o in HaL, HmL, HaC, HmC, HaR, HmR. fold (at_ LEFT) in HaL, HmL.
  fold (at_ CENTER) in HaC, HmC. fold (at_ RIGHT) in HaR, HmR.
  rewrite Hsessions in HaL, HmL, HaC, HmC, HaR, HmR.
  pose proof (sum_attempts_partition (statsOf <$> logs)) as Hpa.
  pose proof (sum_makes_partition (statsOf <$> logs)) as Hpm.
  assert (Hle : (sum_list ((fun s => length (madeShots (SessionStats.shots s)))
                             <$> (statsOf <$> logs))
                 <= sum_list ((fun s => length (SessionStats.shots s))
                                <$> (statsOf <$> logs)))%nat).
  { apply sum_list_le. intros s. apply length_filter. }
  split.
  { rewrite Hn. unfold JS.len. by rewrite length_fmap. }
  split.
  { rewrite Hts, <- list_fmap_compose. simpl. done. }
  repeat split; lia.
Qed.

(** The reducer returns the last of the entries with the greatest key. *)
Lemma reduceBest_last_greatest {A} (key : A -> Z) (rest : list A) :
  forall first,
  exists l1 l2,
    first :: rest = l1 ++ JSArray.reduceBest key first rest :: l2 /\
    (forall a, a ∈ l1 -> key a <= key (JSArray.reduceBest key first rest)) /\
    (forall a, a ∈ l2 -> key a < key (JSArray.reduceBest key first rest)).
Proof.
  induction rest as [|c rest IH]; intros first.
  - exists [], []. split; [done|]. split; intros a Ha; inversion Ha.
  - assert (Hstep : JSArray.reduceBest key first (c :: rest)
                    = JSArray.reduceBest key
                        (if key first >? key c then first else c) rest)
      by done.
    rewrite Hstep. clear Hstep.
    destruct (Z.gtb_spec (key first) (key c)) as [Hgt|Hle].
    + destruct (IH first) as (l1 & l2 & Heq & H1 & H2).
      set (best := JSArray.reduceBest key first rest) in *.
      destruct l1 as [|f l1]; simpl in Heq; injection Heq as Hf Hrest.
      * exists [], (c :: l2). split; [simpl; congruence|].
        split; [intros a Ha; inversion Ha|].
        intros a [->|Ha]%elem_of_cons; [rewrite <- Hf; lia|by apply H2].
      * subst f. exists (first :: c :: l1), l2.
        split; [simpl; congruence|]. split; [|done].
        assert (Hfirst : key first <= key best) by (apply H1; left).
        intros a [->|[->|Ha]%elem_of_cons]%elem_of_cons;
          [done|lia|apply H1; by right].
    + destruct (IH c) as (l1 & l2 & Heq & H1 & H2).
      set (best := JSArray.reduceBest key c rest) in *.
      exists (first :: l1), l2. split; [simpl; congruence|]. split; [|done].
      intros a [->|Ha]%elem_of_cons; [|by apply H1].
      destruct l1 as [|f l1]; simpl in Heq; injection Heq as Hf Hrest.
      * rewrite <- Hf. lia.
      * subst f. specialize (H1 c ltac:(left)). lia.
Qed.

(** X17.  [bestSession] is null exactly for an empty store; otherwise it
    is a stored session whose percentage is at least that of every stored
    session, and among sessions with that percentage it is the most
    recently saved one. *)
Theorem bestSession_is_latest_best (store : storageService.Storage) :
  match OverallStats.bestSession (storageService.getOverallStats store) with
  | None => storageService.getAllSessions store = []
  | Some best =>
    exists earlier later,
      storageService.getAllSessions store = earlier ++ best :: later /\
      (forall s, s ∈ earlier ->
         SessionStats.percentage s <= SessionStats.percentage best) /\
      (forall s, s ∈ later ->
         SessionStats.percentage s < SessionStats.percentage best)
  end.
Proof.
  unfold storageService.getOverallStats.
  destruct (storageService.getAllSessions store) as [|first rest]; [done|].
  simpl. apply reduceBest_last_greatest.
Qed.

(** ** The session dashboard *)

(** X18.  The three bars of the chart are for LEFT, CENTER and RIGHT in
    this order and split the shots between them: their [attempts] add up to
    [totalShots], their [makes] to the number of made shots, each bar has
    [0 <= makes <= attempts], and a bar without attempts shows 0 percent. *)
Theorem chart_bars_partition_shots (shots : list Shot.t) :
  StatsDashboard.name <$> StatsDashboard.data shots = [LEFT; CENTER; RIGHT] /\
  foldr (fun bar sum => StatsDashboard.attempts bar + sum) 0
        (StatsDashboard.data shots) = StatsDashboard.totalShots shots /\
  foldr (fun bar sum => StatsDashboard.makes bar + sum) 0
        (StatsDashboard.data shots) = StatsDashboard.madeShotsCount shots /\
  Forall (fun bar =>
            0 <= StatsDashboard.makes bar <= StatsDashboard.attempts bar /\
            (StatsDashboard.attempts bar = 0 -> StatsDashboard.pct bar = 0))
         (StatsDashboard.data shots).
Proof.
  split; [done|].
  unfold StatsDashboard.data, StatsDashboard.positions,
    StatsDashboard.totalShots, StatsDashboard.madeShotsCount, JS.len.
  cbn [map foldr StatsDashboard.attempts StatsDashboard.makes].
  fold (attemptsAt LEFT shots) (attemptsAt CENTER shots)
       (attemptsAt RIGHT shots).
  fold (makesAt LEFT shots) (makesAt CENTER shots) (makesAt RIGHT shots).
  pose proof (attempts_partition shots) as Ha.
  pose proof (makes_partition shots) as Hm.
  split; [lia|]. split; [lia|].
  repeat (apply Forall_cons; split); [..|apply Forall_nil; exact I];
    cbn [StatsDashboard.attempts StatsDashboard.makes StatsDashboard.pct];
    (split; [split; [lia|apply inj_le, length_filter]|by intros ->]).
Qed.

Lemma chart_bars_partition_shots_witness :
  Forall (fun bar =>
            0 <= StatsDashboard.makes bar <= StatsDashboard.attempts bar /\
            (StatsDashboard.attempts bar = 0 -> StatsDashboard.pct bar = 0))
         (StatsDashboard.data [Shot.mk "1" MAKE LEFT 1]).
Proof.
  apply (proj2 (proj2 (proj2
           (chart_bars_partition_shots [Shot.mk "1" MAKE LEFT 1])))).
Defined.

(** X19.  Without shots the component shows "No Data Yet" and no "Best
    Zone" card.  With at least one shot the card is shown and never fails;
    it names a bar whose percentage is at least that of every bar, and of
    the bars with that percentage the one furthest to the right (so RIGHT
    when all three are equal). *)
Theorem bestZone_is_rightmost_best (shots : list Shot.t) :
  (shots = [] -> StatsDashboard.bestZone shots = Normal None) /\
  (shots <> [] ->
   exists before best after,
     StatsDashboard.data shots = before ++ best :: after /\
     StatsDashboard.bestZone shots = Normal (Some (StatsDashboard.name best))
     /\
     (forall bar, bar ∈ before ->
        StatsDashboard.pct bar <= StatsDashboard.pct best) /\
     (forall bar, bar ∈ after ->
        StatsDashboard.pct bar < StatsDashboard.pct best)).
Proof.
  split; [by intros ->|]. intros Hne.
  unfold StatsDashboard.bestZone, StatsDashboard.totalShots, JS.len.
  destruct (Z.eqb_spec (Z.of_nat (length shots)) 0) as [Hlen|_].
  { destruct shots; [done|simpl in Hlen; lia]. }
  destruct (StatsDashboard.data shots) as [|first rest] eqn:Hdata;
    [discriminate Hdata|].
  destruct (reduceBest_last_greatest StatsDashboard.pct rest first)
    as (l1 & l2 & Heq & H1 & H2).
  exists l1, (JSArray.reduceBest StatsDashboard.pct first rest), l2. done.
Qed.

(** ** Archiving the completed drill *)







(** ** Witnesses on concrete inputs *)

Lemma active_position_agrees_with_instruction_witness :
  exists rest,
    getInstruction (Some (startDrill 1 [DrillStep.mk LEFT (Some 2) None]))
    = "Move to " +:+ CourtPosition_value LEFT +:+ rest.
Proof.
  apply (proj1 (active_position_agrees_with_instruction
                  (startDrill 1 [DrillStep.mk LEFT (Some 2) None])) LEFT).
  reflexivity.
Defined.

Lemma bestSession_is_latest_best_witness :
  let older := SessionStats.mk "1" 1 2 1 50 [] in
  let newer := SessionStats.mk "2" 2 4 2 50 [] in
  exists earlier later,
    [older; newer] = earlier ++ newer :: later /\
    (forall s, s ∈ earlier ->
       SessionStats.percentage s <= SessionStats.percentage newer) /\
    (forall s, s ∈ later ->
       SessionStats.percentage s < SessionStats.percentage newer).
Proof.
  intros older newer.
  exact (bestSession_is_latest_best (Some [older; newer])).
Defined.

Lemma bestZone_is_rightmost_best_witness :
  let shots := [Shot.mk "1" MISS LEFT 1; Shot.mk "2" MAKE CENTER 2] in
  exists before best after,
    StatsDashboard.data shots = before ++ best :: after /\
    StatsDashboard.bestZone shots = Normal (Some (StatsDashboard.name best))
    /\
    (forall bar, bar ∈ before ->
       StatsDashboard.pct bar <= StatsDashboard.pct best) /\
    (forall bar, bar ∈ after ->
       StatsDashboard.pct bar < StatsDashboard.pct best).
Proof.
  intros shots. apply (proj2 (bestZone_is_rightmost_best shots)).
  discriminate.
Defined.

(** [Math.round((part / whole) * 100)] is computed on doubles: 57 of 200
    is shown as 28 percent although 28.5 rounds to 29, because the product
    is 28.499999999999996. *)
Example percent_on_doubles :
  JSMath.percent 1 8 = 13 /\ JSMath.percent 2 3 = 67 /\
  JSMath.percent 3 3 = 100 /\ JSMath.percent 57 200 = 28.
Proof. vm_compute. done. Qed.

(** ** Thresholds set in the custom builder *)



(** A declined confirmation leaves store and statistics alone; a
    confirmed one empties the store and zeroes the statistics. *)
Lemma handleClearStats_cases store overallStats :
  StatsDashboard.handleClearStats false store overallStats
    = (store, overallStats) /\
  storageService.getAllSessions
    (StatsDashboard.handleClearStats true store overallStats).1 = [] /\
  OverallStats.totalSessions
    (StatsDashboard.handleClearStats true store overallStats).2 = 0 /\
  OverallStats.bestSession
    (StatsDashboard.handleClearStats true store overallStats).2 = None.
Proof. done. Qed.
